(** * StreamRenderer: a shallow embedding of [js/streamRenderer.js]

    The renderer buffers text chunks arriving from a stream and writes the
    buffer to the DOM once per animation frame.  This development embeds

    - JavaScript strings as lists of UTF-16 code units,
    - the regular expression used by [defaultSanitize], with the greedy
      backtracking matcher and the global [String.prototype.replace] scan,
    - [String.prototype.trim],
    - the [StreamRenderer] class as a state-and-exception monad over a
      world made of the instance fields, the container element, the text
      nodes, the animation-frame queue and a log of observable effects.

    Beside the class, the development embeds its caller, the integration
    example (its sanitizer and the loop that cuts JSON objects out of the
    streamed response), and pure parts of the application script and its
    utilities (the post-processing of the response, the failure text, the
    Generate button state, [validateApiKey], [calculateWorkingDays]).

    Modelling conventions.  The callbacks [onUpdate] and [onComplete] are
    opaque observers: calling them is recorded in the log and they neither
    throw nor call back into the renderer.  [sanitize] is a total function on
    strings.  [markdownParser] either returns markup or throws. *)

From Stdlib Require Import List Bool Arith Lia NArith ZArith String Ascii.
Import ListNotations.

Set Implicit Arguments.

(* ================================================================== *)
(** ** JavaScript strings *)
(* ================================================================== *)

Module JsString.

(** A JavaScript string is a finite sequence of 16-bit code units. *)
Definition jsstring := list N.

(** ASCII literals, for writing examples. *)
Fixpoint js (s : string) : jsstring :=
  match s with
  | EmptyString => []
  | String c s' => N_of_ascii c :: js s'
  end.

Definition LF : N := 10.
Definition CR : N := 13.

Definition jsstring_eqb (a b : jsstring) : bool :=
  if list_eq_dec N.eq_dec a b then true else false.

(** The longest prefix of [s] whose units satisfy [p], and what follows. *)
Fixpoint take_while (p : N -> bool) (s : jsstring) : jsstring :=
  match s with
  | [] => []
  | c :: s' => if p c then c :: take_while p s' else []
  end.

Fixpoint drop_while (p : N -> bool) (s : jsstring) : jsstring :=
  match s with
  | [] => []
  | c :: s' => if p c then drop_while p s' else s
  end.

(** ECMAScript WhiteSpace and LineTerminator code points, the set
    [String.prototype.trim] removes. *)
Definition is_white_space (c : N) : bool :=
  ((9 <=? c) && (c <=? 13)      (* TAB, LF, VT, FF, CR *)
   || (c =? 32)                  (* SPACE *)
   || (c =? 160)                 (* NO-BREAK SPACE *)
   || (c =? 5760)                (* OGHAM SPACE MARK *)
   || ((8192 <=? c) && (c <=? 8202))  (* EN QUAD .. HAIR SPACE *)
   || (c =? 8232) || (c =? 8233) (* LINE / PARAGRAPH SEPARATOR *)
   || (c =? 8239) || (c =? 8287) || (c =? 12288)
   || (c =? 65279))%N.           (* ZERO WIDTH NO-BREAK SPACE *)

Definition trimStart (s : jsstring) : jsstring := drop_while is_white_space s.
Definition trimEnd (s : jsstring) : jsstring :=
  rev (drop_while is_white_space (rev s)).

(** [String.prototype.trim] *)
Definition trim (s : jsstring) : jsstring := trimStart (trimEnd s).

End JsString.
Import JsString.

(* ================================================================== *)
(** ** Regular expressions: the fragment used by the sanitizer *)
(* ================================================================== *)

Module RegExp.

(** A pattern is a sequence of terms: a character class under a greedy
    quantifier [{lo,hi}] ([hi = None] for no upper bound), or the assertion
    [$], which without the [m] flag holds only at the end of the input. *)
Inductive term : Type :=
| Repeat (cls : N -> bool) (lo : nat) (hi : option nat)
| AssertEnd.

Definition pattern := list term.

(** Number of leading units of [s] in class [cls]. *)
Fixpoint count_prefix (cls : N -> bool) (s : jsstring) : nat :=
  match s with
  | [] => 0
  | c :: s' => if cls c then S (count_prefix cls s') else 0
  end.

Definition greedy_count (cls : N -> bool) (hi : option nat) (s : jsstring) : nat :=
  match hi with
  | None => count_prefix cls s
  | Some h => Nat.min h (count_prefix cls s)
  end.

(** Backtracking over the repetition count of a greedy quantifier: the
    largest count is tried first, then one less, down to [lo]. *)
Fixpoint try_down (A : Type) (k : nat -> option A) (lo n : nat) : option A :=
  if n <? lo then None
  else match k n with
       | Some r => Some r
       | None => match n with
                 | 0 => None
                 | S n' => try_down k lo n'
                 end
       end.

(** [match_here p s] matches [p] at the start of [s] and returns the number
    of code units of the first match in backtracking priority order. *)
Fixpoint match_here (p : pattern) (s : jsstring) : option nat :=
  match p with
  | [] => Some 0
  | AssertEnd :: p' =>
      match s with
      | [] => match_here p' s
      | _ :: _ => None
      end
  | Repeat cls lo hi :: p' =>
      try_down
        (fun n => option_map (Nat.add n) (match_here p' (skipn n s)))
        lo (greedy_count cls hi s)
  end.

(** [String.prototype.replace] with a global pattern and a replacement
    string without [$] references.  The scan walks the input from the left;
    [skip] counts the units of the current match still to be dropped.  With
    [skip = 0] the scan is at [lastIndex]: a match is tried here; on a
    non-empty match the replacement is emitted and the match dropped, on an
    empty match the replacement is emitted and [lastIndex] advances by one
    unit, on failure the unit is copied and the next index is tried.  The
    index equal to the length of the input is tried as well. *)
Fixpoint replace_scan (p : pattern) (repl : jsstring) (s : jsstring) (skip : nat)
  : jsstring :=
  match skip with
  | S k =>
      match s with
      | [] => []
      | _ :: s' => replace_scan p repl s' k
      end
  | 0 =>
      match match_here p s with
      | Some (S n) =>
          repl ++ match s with
                  | [] => []
                  | _ :: s' => replace_scan p repl s' n
                  end
      | Some 0 =>
          repl ++ match s with
                  | [] => []
                  | c :: s' => c :: replace_scan p repl s' 0
                  end
      | None =>
          match s with
          | [] => []
          | c :: s' => c :: replace_scan p repl s' 0
          end
      end
  end.

Definition replace_all (p : pattern) (repl : jsstring) (s : jsstring) : jsstring :=
  replace_scan p repl s 0.

End RegExp.
Import RegExp.

(* ================================================================== *)
(** ** The default sanitizer *)
(* ================================================================== *)

(** The class [[\r\n]]. *)
Definition is_line_break (c : N) : bool := ((c =? CR) || (c =? LF))%N.

(** The class [[-=]]. *)
Definition is_separator (c : N) : bool := ((c =? 45) || (c =? 61))%N.

(** [/[\r\n]+[-=]{3,}[\r\n]*$/g] *)
Definition trailing_rule : pattern :=
  [ Repeat is_line_break 1 None;
    Repeat is_separator 3 None;
    Repeat is_line_break 0 None;
    AssertEnd ].

(** [defaultSanitize(text)]:
    [text.replace(/[\r\n]+[-=]{3,}[\r\n]*$/g, '').trim()] *)
Definition defaultSanitize (text : jsstring) : jsstring :=
  trim (replace_all trailing_rule [] text).


(* ================================================================== *)
(** ** The world: instance fields, container, document, frame queue *)
(* ================================================================== *)

(** A thrown JavaScript value. *)
Inductive exn : Type := JsError (message : jsstring).

(** The outcome of evaluating a call: a value, or an exception. *)
Inductive completion (A : Type) : Type :=
| Normal (a : A)
| Throw (e : exn).
Arguments Normal {A} a.
Arguments Throw {A} e.

(** What the container element holds. *)
Inductive child : Type :=
| ParsedMarkup (markup : jsstring)   (* nodes parsed from [innerHTML = markup] *)
| AnonText (text : jsstring)         (* the text node made by [textContent = text] *)
| TextNodeRef (id : nat).            (* a text node appended with [appendChild] *)

Inductive dom_target : Type :=
| TextNodeData (id : nat)
| ContainerInnerHTML
| ContainerTextContent.

(** Observable effects, in the order they happen. *)
Inductive event : Type :=
| ConsoleWarn (message : string) (detail : option exn)
| DomWrite (target : dom_target) (value : jsstring)
| DomAppendChild (id : nat)
| CalledOnUpdate (text : jsstring)
| CalledOnComplete (text : jsstring)
| Uncaught (e : exn).

Record World : Type := mkWorld {
  (* fields of the StreamRenderer instance *)
  textBuffer : jsstring;
  lastRenderedText : jsstring;
  rafId : option nat;
  isFinished : bool;
  textNode : option nat;
  (* the container element *)
  children : list child;
  style_contain : jsstring;
  style_willChange : jsstring;
  (* text nodes of the document, by identity *)
  nodes : list jsstring;
  (* the window's animation frame callbacks: pending handles, last handle *)
  raf_queue : list nat;
  raf_handle : nat;
  (* effects observed so far *)
  log : list event
}.

Definition set_textBuffer (v : jsstring) (w : World) : World :=
  mkWorld v (lastRenderedText w) (rafId w) (isFinished w) (textNode w)
    (children w) (style_contain w) (style_willChange w) (nodes w)
    (raf_queue w) (raf_handle w) (log w).

Definition set_lastRenderedText (v : jsstring) (w : World) : World :=
  mkWorld (textBuffer w) v (rafId w) (isFinished w) (textNode w)
    (children w) (style_contain w) (style_willChange w) (nodes w)
    (raf_queue w) (raf_handle w) (log w).

Definition set_rafId (v : option nat) (w : World) : World :=
  mkWorld (textBuffer w) (lastRenderedText w) v (isFinished w) (textNode w)
    (children w) (style_contain w) (style_willChange w) (nodes w)
    (raf_queue w) (raf_handle w) (log w).

Definition set_isFinished (v : bool) (w : World) : World :=
  mkWorld (textBuffer w) (lastRenderedText w) (rafId w) v (textNode w)
    (children w) (style_contain w) (style_willChange w) (nodes w)
    (raf_queue w) (raf_handle w) (log w).

Definition set_textNode (v : option nat) (w : World) : World :=
  mkWorld (textBuffer w) (lastRenderedText w) (rafId w) (isFinished w) v
    (children w) (style_contain w) (style_willChange w) (nodes w)
    (raf_queue w) (raf_handle w) (log w).

Definition set_children (v : list child) (w : World) : World :=
  mkWorld (textBuffer w) (lastRenderedText w) (rafId w) (isFinished w) (textNode w)
    v (style_contain w) (style_willChange w) (nodes w)
    (raf_queue w) (raf_handle w) (log w).

Definition set_style_contain (v : jsstring) (w : World) : World :=
  mkWorld (textBuffer w) (lastRenderedText w) (rafId w) (isFinished w) (textNode w)
    (children w) v (style_willChange w) (nodes w)
    (raf_queue w) (raf_handle w) (log w).

Definition set_style_willChange (v : jsstring) (w : World) : World :=
  mkWorld (textBuffer w) (lastRenderedText w) (rafId w) (isFinished w) (textNode w)
    (children w) (style_contain w) v (nodes w)
    (raf_queue w) (raf_handle w) (log w).

Definition set_nodes (v : list jsstring) (w : World) : World :=
  mkWorld (textBuffer w) (lastRenderedText w) (rafId w) (isFinished w) (textNode w)
    (children w) (style_contain w) (style_willChange w) v
    (raf_queue w) (raf_handle w) (log w).

Definition set_raf_queue (v : list nat) (w : World) : World :=
  mkWorld (textBuffer w) (lastRenderedText w) (rafId w) (isFinished w) (textNode w)
    (children w) (style_contain w) (style_willChange w) (nodes w)
    v (raf_handle w) (log w).

Definition set_raf_handle (v : nat) (w : World) : World :=
  mkWorld (textBuffer w) (lastRenderedText w) (rafId w) (isFinished w) (textNode w)
    (children w) (style_contain w) (style_willChange w) (nodes w)
    (raf_queue w) v (log w).

Definition set_log (v : list event) (w : World) : World :=
  mkWorld (textBuffer w) (lastRenderedText w) (rafId w) (isFinished w) (textNode w)
    (children w) (style_contain w) (style_willChange w) (nodes w)
    (raf_queue w) (raf_handle w) v.

(** Replace the element at index [i]; out of range the list is unchanged
    (a text node that was never created cannot be written). *)
Fixpoint list_update (A : Type) (i : nat) (v : A) (l : list A) : list A :=
  match l, i with
  | [], _ => []
  | _ :: l', 0 => v :: l'
  | x :: l', S i' => x :: list_update i' v l'
  end.

(* ================================================================== *)
(** ** A state-and-exception monad for method bodies *)
(* ================================================================== *)

Definition M (A : Type) : Type := World -> completion A * World.

Definition ret (A : Type) (a : A) : M A := fun w => (Normal a, w).

Definition bind (A B : Type) (m : M A) (k : A -> M B) : M B :=
  fun w =>
    match m w with
    | (Normal a, w') => k a w'
    | (Throw e, w') => (Throw e, w')
    end.

(** [try { body } catch (error) { handler }] *)
Definition try_catch (A : Type) (body : M A) (handler : exn -> M A) : M A :=
  fun w =>
    match body w with
    | (Normal a, w') => (Normal a, w')
    | (Throw e, w') => handler e w'
    end.

Definition get (A : Type) (f : World -> A) : M A := fun w => (Normal (f w), w).
Definition modify (f : World -> World) : M unit := fun w => (Normal tt, f w).
Definition emit (e : event) : M unit :=
  modify (fun w => set_log (log w ++ [e]) w).

(** The result of calling a function supplied by the caller. *)
Definition call (A : Type) (r : completion A) : M A := fun w => (r, w).

Declare Scope monad_scope.
Delimit Scope monad_scope with monad.
Notation "x <- m ;; k" := (bind m (fun x => k))
  (at level 61, m at next level, right associativity) : monad_scope.
Notation "m ;; k" := (bind m (fun _ => k))
  (at level 61, right associativity) : monad_scope.
Open Scope monad_scope.

(** JavaScript truthiness of a string: the empty string is falsy. *)
Definition truthy (s : jsstring) : bool :=
  match s with [] => false | _ :: _ => true end.

(* ------------------------------------------------------------------ *)
(** *** Host operations *)

(** [window.requestAnimationFrame(render)]: a fresh handle is issued and
    the callback is queued. *)
Definition requestAnimationFrame : M nat :=
  fun w =>
    let h := S (raf_handle w) in
    (Normal h, set_raf_queue (raf_queue w ++ [h]) (set_raf_handle h w)).

(** [window.cancelAnimationFrame(id)] *)
Definition cancelAnimationFrame (id : nat) : M unit :=
  modify (fun w => set_raf_queue (remove Nat.eq_dec id (raf_queue w)) w).

(** [document.createTextNode(data)] *)
Definition createTextNode (data : jsstring) : M nat :=
  fun w => (Normal (List.length (nodes w)), set_nodes (nodes w ++ [data]) w).

(** [container.appendChild(node)] *)
Definition appendChild (id : nat) : M unit :=
  modify (fun w => set_children (children w ++ [TextNodeRef id]) w) ;;
  emit (DomAppendChild id).

(** [container.innerHTML = markup] *)
Definition set_innerHTML (markup : jsstring) : M unit :=
  modify (set_children (if truthy markup then [ParsedMarkup markup] else [])) ;;
  emit (DomWrite ContainerInnerHTML markup).

(** [container.textContent = text] *)
Definition set_textContent (text : jsstring) : M unit :=
  modify (set_children (if truthy text then [AnonText text] else [])) ;;
  emit (DomWrite ContainerTextContent text).

(** [node.textContent = text] on a text node *)
Definition set_node_textContent (id : nat) (text : jsstring) : M unit :=
  modify (fun w => set_nodes (list_update id text (nodes w)) w) ;;
  emit (DomWrite (TextNodeData id) text).

(** [console.warn(message, detail)] *)
Definition console_warn (message : string) (detail : option exn) : M unit :=
  emit (ConsoleWarn message detail).

(* ================================================================== *)
(** ** class StreamRenderer *)
(* ================================================================== *)

(** The [options] argument of the constructor.  A field the caller leaves
    out is [None].  [onComplete] and [onUpdate] are observers: their calls
    are recorded in the log whether the caller supplied them or not. *)
Record StreamRendererOptions : Type := mkOptions {
  opt_sanitize : option (jsstring -> jsstring);
  opt_useTextNode : option bool;
  opt_markdownParser : option (jsstring -> completion jsstring)
}.

Definition default_options : StreamRendererOptions := mkOptions None None None.

Section Class.

Variable options : StreamRendererOptions.

(** [this.options], as the constructor resolves it. *)

(** [sanitize: options.sanitize || this.defaultSanitize.bind(this)] *)
Definition sanitize : jsstring -> jsstring :=
  match opt_sanitize options with
  | Some f => f
  | None => defaultSanitize
  end.

(** [useTextNode: options.useTextNode !== undefined ? options.useTextNode : true] *)
Definition useTextNode : bool :=
  match opt_useTextNode options with
  | Some b => b
  | None => true
  end.

(** [markdownParser: options.markdownParser || ((text) => text)] *)
Definition markdownParser : jsstring -> completion jsstring :=
  match opt_markdownParser options with
  | Some f => f
  | None => fun text => Normal text
  end.

Definition onUpdate (text : jsstring) : M unit := emit (CalledOnUpdate text).
Definition onComplete (text : jsstring) : M unit := emit (CalledOnComplete text).

Definition initializeContainer : M unit :=
  (* Clear existing content *)
  set_innerHTML [] ;;
  (* Add performance optimization styles if not already present *)
  contain <- get style_contain ;;
  (if negb (truthy contain)
   then modify (set_style_contain (js "content")) else ret tt) ;;
  willChange <- get style_willChange ;;
  (if negb (truthy willChange)
   then modify (set_style_willChange (js "contents")) else ret tt) ;;
  (* Create a text node for efficient updates if using text mode *)
  if useTextNode then
    id <- createTextNode [] ;;
    modify (set_textNode (Some id)) ;;
    appendChild id
  else ret tt.

Definition renderToDOM : M unit :=
  tn <- get textNode ;;
  match useTextNode, tn with
  | true, Some id =>
      (* Fast path: just update text node content *)
      buf <- get textBuffer ;;
      set_node_textContent id buf
  | _, _ =>
      (* Markdown/HTML path: parse and set innerHTML *)
      try_catch
        (buf <- get textBuffer ;;
         parsed <- call (markdownParser buf) ;;
         set_innerHTML parsed)
        (fun error =>
           console_warn "Error parsing markdown, falling back to plain text:"
             (Some error) ;;
           buf <- get textBuffer ;;
           set_textContent buf)
  end.

Definition cleanup : M unit :=
  (* Cancel any pending animation frame *)
  id <- get rafId ;;
  match id with
  | Some h => cancelAnimationFrame h ;; modify (set_rafId None)
  | None => ret tt
  end ;;
  (* Call completion callback *)
  buf <- get textBuffer ;;
  onComplete buf.

(** The closure [render] of [startRenderLoop], run by the window for each
    queued callback. *)
Definition render : M unit :=
  (* Only update if buffer has changed since last render *)
  buf <- get textBuffer ;;
  last <- get lastRenderedText ;;
  (if negb (jsstring_eqb buf last) then
     renderToDOM ;;
     buf <- get textBuffer ;;
     modify (set_lastRenderedText buf) ;;
     (* Call update callback *)
     buf <- get textBuffer ;;
     onUpdate buf
   else ret tt) ;;
  (* Continue loop unless finished *)
  fin <- get isFinished ;;
  if negb fin then
    h <- requestAnimationFrame ;;
    modify (set_rafId (Some h))
  else
    (* Final render and cleanup *)
    renderToDOM ;;
    cleanup.

Definition startRenderLoop : M unit :=
  h <- requestAnimationFrame ;;
  modify (set_rafId (Some h)).

Definition constructor : M unit :=
  modify (set_textBuffer []) ;;
  modify (set_lastRenderedText []) ;;
  modify (set_rafId None) ;;
  modify (set_isFinished false) ;;
  modify (set_textNode None) ;;
  (* Initialize container *)
  initializeContainer ;;
  (* Start the render loop *)
  startRenderLoop.

Definition appendChunk (chunk : jsstring) : M unit :=
  fin <- get isFinished ;;
  if fin then
    console_warn
      "StreamRenderer: Cannot append chunk after finish() has been called" None
  else
    buf <- get textBuffer ;;
    modify (set_textBuffer (buf ++ chunk)).

Definition finish : M unit :=
  fin <- get isFinished ;;
  if fin then ret tt
  else
    modify (set_isFinished true) ;;
    (* Apply sanitization to final text *)
    buf <- get textBuffer ;;
    modify (set_textBuffer (sanitize buf)).
    (* The render loop will handle final render and cleanup *)

Definition getCurrentText : M jsstring := get textBuffer.

Definition reset : M unit :=
  (* Cancel existing render loop *)
  id <- get rafId ;;
  match id with
  | Some h => cancelAnimationFrame h ;; modify (set_rafId None)
  | None => ret tt
  end ;;
  (* Reset state *)
  modify (set_textBuffer []) ;;
  modify (set_lastRenderedText []) ;;
  modify (set_isFinished false) ;;
  (* Reinitialize *)
  initializeContainer ;;
  startRenderLoop.

Definition destroy : M unit :=
  id <- get rafId ;;
  match id with
  | Some h => cancelAnimationFrame h ;; modify (set_rafId None)
  | None => ret tt
  end ;;
  modify (set_textNode None) ;;
  modify (set_isFinished true).

(* ------------------------------------------------------------------ *)
(** *** Running the program *)

(** A statement run at top level: an exception that escapes is reported. *)
Definition exec (m : M unit) (w : World) : World :=
  match m w with
  | (Normal _, w') => w'
  | (Throw e, w') => set_log (log w' ++ [Uncaught e]) w'
  end.

(** One display refresh.  The window takes the handles pending at the start
    of the frame; each one still pending when its turn comes is removed from
    the queue and its callback is run.  Every callback is [render]. *)
Fixpoint run_callbacks (handles : list nat) (w : World) : World :=
  match handles with
  | [] => w
  | h :: hs =>
      if existsb (Nat.eqb h) (raf_queue w) then
        run_callbacks hs
          (exec render (set_raf_queue (remove Nat.eq_dec h (raf_queue w)) w))
      else run_callbacks hs w
  end.

Definition animationFrame (w : World) : World :=
  run_callbacks (raf_queue w) w.

(** What the caller and the window do to a renderer. *)
Inductive action : Type :=
| AppendChunk (chunk : jsstring)
| Finish
| GetCurrentText
| Reset
| Destroy
| AnimationFrame.

Definition step (a : action) (w : World) : World :=
  match a with
  | AppendChunk chunk => exec (appendChunk chunk) w
  | Finish => exec finish w
  | GetCurrentText => exec (getCurrentText ;; ret tt) w
  | Reset => exec reset w
  | Destroy => exec destroy w
  | AnimationFrame => animationFrame w
  end.

Definition run (acts : list action) (w : World) : World :=
  fold_left (fun w a => step a w) acts w.

(** The page before the renderer is constructed: a container with some
    content and styles, an empty frame queue, nothing logged. *)
Definition page (content : list child) (contain willChange : jsstring) : World :=
  mkWorld [] [] None false None content contain willChange [] [] 0 [].

(** [new StreamRenderer(container, options)] on a page. *)
Definition new_StreamRenderer (w : World) : World := exec constructor w.

End Class.


(* ------------------------------------------------------------------ *)
(** *** Reading the log *)

Definition is_render (e : event) : bool :=
  match e with DomWrite _ _ => true | _ => false end.
Definition is_onUpdate (e : event) : bool :=
  match e with CalledOnUpdate _ => true | _ => false end.
Definition is_onComplete (e : event) : bool :=
  match e with CalledOnComplete _ => true | _ => false end.
Definition is_uncaught (e : event) : bool :=
  match e with Uncaught _ => true | _ => false end.

Definition count (p : event -> bool) (l : list event) : nat :=
  List.length (filter p l).

(** The arguments [onComplete] was called with, in order. *)
Fixpoint onComplete_calls (l : list event) : list jsstring :=
  match l with
  | [] => []
  | CalledOnComplete t :: l' => t :: onComplete_calls l'
  | _ :: l' => onComplete_calls l'
  end.

(** What the display surface shows: for each child of the container, parsed
    markup or plain text; a referenced text node shows its current data. *)
Inductive rendered : Type :=
| ShowsMarkup (markup : jsstring)
| ShowsText (text : jsstring).

Definition surface (w : World) : list rendered :=
  map (fun c =>
         match c with
         | ParsedMarkup m => ShowsMarkup m
         | AnonText t => ShowsText t
         | TextNodeRef id => ShowsText (nth id (nodes w) [])
         end)
      (children w).

(** The three states of the presenter: appends accepted and loop running;
    finished with the terminal frame still queued; finished and stopped. *)
Inductive phase : Type := Active | Sealed | Terminated.

Definition phase_of (w : World) : phase :=
  if negb (isFinished w) then Active
  else match raf_queue w with
       | [] => Terminated
       | _ :: _ => Sealed
       end.

(* ================================================================== *)
(** ** The integration example: [js/streamRenderer-integration-example.js] *)
(* ================================================================== *)

(** [sanitizeMarkdown(text)], the sanitizer the example passes in
    [options.sanitize]:
    [text.replace(/[\r\n]+[-=]{3,}[\r\n]*$/g, '').trim()] *)
Definition sanitizeMarkdown (text : jsstring) : jsstring :=
  trim (replace_all trailing_rule [] text).

Definition open_brace : N := 123.
Definition close_brace : N := 125.

(** The loop that cuts JSON objects out of the stream buffer.

    [buffer] is [seen ++ rest] and the loop index [i] is the length of
    [seen]; [objectStart] is [None] for [-1].  On a closing brace that
    brings [openBraces] to zero with an object started, the candidate
    [buffer.substring(objectStart, i + 1)] is cut out, the buffer becomes
    [buffer.substring(i + 1)] and the scan restarts at its first unit with
    [objectStart = -1] ([openBraces] is zero at that point).  The result is
    the candidates in the order they are handed to [JSON.parse], and the
    buffer left when the loop ends. *)
Fixpoint scan_objects (rest seen : jsstring) (openBraces : Z)
    (objectStart : option nat) : list jsstring * jsstring :=
  match rest with
  | [] => ([], seen)
  | c :: rest' =>
      if (c =? open_brace)%N then
        scan_objects rest' (seen ++ [c]) (openBraces + 1)%Z
          (if (openBraces =? 0)%Z then Some (List.length seen) else objectStart)
      else if (c =? close_brace)%N then
        let openBraces' := (openBraces - 1)%Z in
        match (openBraces' =? 0)%Z, objectStart with
        | true, Some start =>
            let jsonStr := skipn start (seen ++ [c]) in
            let (objs, left) := scan_objects rest' [] openBraces' None in
            (jsonStr :: objs, left)
        | _, _ => scan_objects rest' (seen ++ [c]) openBraces' objectStart
        end
      else scan_objects rest' (seen ++ [c]) openBraces objectStart
  end.

(** One turn of the read loop: [buffer += chunk], then the scan with
    [openBraces = 0] and [objectStart = -1]. *)
Definition read_chunk (buffer chunk : jsstring) : list jsstring * jsstring :=
  scan_objects (buffer ++ chunk) [] 0%Z None.

(** The read loop over the chunks of a response, from a buffer. *)
Fixpoint read_stream (chunks : list jsstring) (buffer : jsstring)
  : list jsstring * jsstring :=
  match chunks with
  | [] => ([], buffer)
  | chunk :: chunks' =>
      let (objs, buffer') := read_chunk buffer chunk in
      let (objs', left) := read_stream chunks' buffer' in
      (objs ++ objs', left)
  end.

(** What the example does with the candidates.  [text_of] stands for the
    body of the [try]: [JSON.parse] and the path
    [candidates[0].content.parts[0].text]; it is [None] when parsing or the
    path throws (the [catch] ignores it), when [candidates] is missing, and
    when the text is empty.  Each text found is appended to the renderer;
    after the last chunk the example calls [finish()]. *)
Definition stream_actions (text_of : jsstring -> option jsstring)
    (chunks : list jsstring) : list action :=
  flat_map (fun obj => match text_of obj with
                       | Some newText => [AppendChunk newText]
                       | None => []
                       end)
           (fst (read_stream chunks []))
  ++ [Finish].



(* ================================================================== *)
(** ** The application: the main script and its utilities *)
(* ================================================================== *)

(** [s.includes(c)] for a one-unit string [c] *)
Definition includes_unit (u : N) (s : jsstring) : bool := existsb (N.eqb u) s.

(** [s.split('\n')]: the empty string splits into one empty line. *)
Fixpoint split_lines (s : jsstring) : list jsstring :=
  match s with
  | [] => [[]]
  | c :: s' =>
      if (c =? LF)%N then [] :: split_lines s'
      else match split_lines s' with
           | line :: lines => (c :: line) :: lines
           | [] => [[c]]
           end
  end.

(** [lines.join('\n')] *)
Fixpoint join_lines (lines : list jsstring) : jsstring :=
  match lines with
  | [] => []
  | [line] => line
  | line :: rest => line ++ LF :: join_lines rest
  end.

Definition vertical_bar : N := 124.

(** The loop that post-processes the markdown of a response, the one
    commented as fixing table formatting, from index [i] on.  A line with
    a [|] and more than 1000 units is reported with [console.warn], as the
    pair of its index and its length, and pushed; any other line is
    pushed.  The result is the warnings and [fixedContent]. *)
Fixpoint fix_rows (i : nat) (lines : list jsstring)
  : list (nat * nat) * list jsstring :=
  match lines with
  | [] => ([], [])
  | line :: rest =>
      let (warnings, fixedContent) := fix_rows (S i) rest in
      if includes_unit vertical_bar line && (1000 <? List.length line)
      then ((i, List.length line) :: warnings, line :: fixedContent)
      else (warnings, line :: fixedContent)
  end.

(** [lines = markdownContent.split('\n')], the loop, and
    [markdownContent = fixedContent.join('\n')]. *)
Definition postprocess_tables (markdownContent : jsstring)
  : list (nat * nat) * jsstring :=
  let (warnings, fixedContent) := fix_rows 0 (split_lines markdownContent) in
  (warnings, join_lines fixedContent).

(** [/\n/g] *)
Definition line_feed_rule : pattern :=
  [ Repeat (fun c => (c =? LF)%N) 1 (Some 1) ].

(** [errorText = error.message.replace(/\n/g, '<br>')] *)
Definition errorText (message : jsstring) : jsstring :=
  replace_all line_feed_rule (js "<br>") message.



(** [key.startsWith(prefix)] *)
Fixpoint startsWith (prefix key : jsstring) : bool :=
  match prefix, key with
  | [], _ => true
  | _ :: _, [] => false
  | p :: prefix', k :: key' => (p =? k)%N && startsWith prefix' key'
  end.

(** An entry of [providers]. *)
Record Provider : Type := mkProvider {
  provider_name : jsstring;
  keyPrefix : jsstring;
  placeholder : jsstring;
  keyUrl : jsstring;
  validate : jsstring -> bool
}.

Definition openai : Provider :=
  mkProvider (js "OpenAI") (js "sk-") (js "sk-...")
    (js "https://platform.openai.com/account/api-keys")
    (fun key => startsWith (js "sk-") key).

Definition gemini : Provider :=
  mkProvider (js "Google Gemini") (js "AIza") (js "AIza...")
    (js "https://makersuite.google.com/app/apikey")
    (fun key => startsWith (js "AIza") key).

(** [validateApiKey(key, provider)] *)
Definition validateApiKey (key : jsstring) (provider : Provider) : bool :=
  if negb (truthy key) || (List.length key =? 0) then false
  else validate provider key.

(* ------------------------------------------------------------------ *)
(** *** [calculateWorkingDays]

    A [Date] is its time value, milliseconds since the epoch, or [None]
    for an invalid date.  The arguments of the model are the values of
    [new Date(start)] and [new Date(end)].  Local time is taken at a
    constant offset [localTZA] from UTC: a host zone without a
    daylight-saving change in the range. *)

Definition msPerDay : Z := 86400000.
Definition maxTime : Z := 8640000000000000.

(** TimeClip: a time value out of range makes the date invalid. *)
Definition timeClip (t : Z) : option Z :=
  if (Z.abs t <=? maxTime)%Z then Some t else None.

Section LocalTime.

Variable localTZA : Z.

(** [date.getDay()]: the week day of the local time, Sunday being 0; the
    epoch was a Thursday. *)
Definition getDay (t : Z) : Z :=
  (((t + localTZA) / msPerDay + 4) mod 7)%Z.

(** [current.setDate(current.getDate() + 1)]: the same local time on the
    next day. *)
Definition next_day (t : Z) : option Z := timeClip (t + msPerDay).

(** The [while] loop, with fuel for its iterations; a comparison with an
    invalid date is false and ends the loop. *)
Fixpoint working_days_loop (fuel : nat) (current endDate : option Z)
    (count : nat) : option nat :=
  match current, endDate with
  | Some c, Some e =>
      if (c <=? e)%Z then
        match fuel with
        | 0 => None
        | S fuel' =>
            let day := getDay c in
            working_days_loop fuel' (next_day c) endDate
              (if negb (day =? 0)%Z && negb (day =? 6)%Z
               then S count else count)
        end
      else Some count
  | _, _ => Some count
  end.

Definition calculateWorkingDays (start end_ : option Z) : option nat :=
  working_days_loop
    (match start, end_ with
     | Some s, Some e => Z.to_nat ((e - s) / msPerDay + 1)
     | _, _ => 0
     end)
    start end_ 0.

End LocalTime.

(** Working days among [n] consecutive days, from the week day [g] on. *)
Fixpoint weekdays_from (g : Z) (n : nat) : nat :=
  match n with
  | 0 => 0
  | S n' =>
      (if negb (g =? 0)%Z && negb (g =? 6)%Z then 1 else 0)
      + weekdays_from ((g + 1) mod 7)%Z n'
  end.

(* ================================================================== *)
(** ** Vocabulary of the statements *)
(* ================================================================== *)

(** Declarative reading of a pattern: [Matches p s n] when [p] matches the
    first [n] code units of [s] for some choice of repetition counts. *)
Inductive Matches : pattern -> jsstring -> nat -> Prop :=
| Matches_nil s : Matches [] s 0
| Matches_end p n : Matches p [] n -> Matches (AssertEnd :: p) [] n
| Matches_repeat cls lo hi p s m n :
    lo <= m -> m <= greedy_count cls hi s ->
    Matches p (skipn m s) n ->
    Matches (Repeat cls lo hi :: p) s (m + n).

(** A horizontal-rule block: one or more line breaks, a run of three or
    more separator characters, then any number of line breaks. *)
Definition rule_block (t : jsstring) : Prop :=
  exists l1 run l2,
    t = l1 ++ run ++ l2 /\
    l1 <> [] /\ forallb is_line_break l1 = true /\
    3 <= List.length run /\ forallb is_separator run = true /\
    forallb is_line_break l2 = true.

(** [stripped text p]: [p] is [text] without its trailing rule block, or
    [text] itself when no suffix of [text] is a rule block. *)
Inductive stripped : jsstring -> jsstring -> Prop :=
| stripped_rule p t : rule_block t -> stripped (p ++ t) p
| stripped_none text :
    (forall q t, text = q ++ t -> ~ rule_block t) -> stripped text text.

(** The sanitizer as the specification words it, the run "optionally
    preceded" by line breaks: [/[\r\n]*[-=]{3,}[\r\n]*$/g]. *)
Definition optional_break_rule : pattern :=
  [ Repeat is_line_break 0 None;
    Repeat is_separator 3 None;
    Repeat is_line_break 0 None;
    AssertEnd ].

Definition sanitize_optional_break (text : jsstring) : jsstring :=
  trim (replace_all optional_break_rule [] text).

(** The chunks a sequence of actions appends, in call order. *)
Fixpoint chunks_of (acts : list action) : list jsstring :=
  match acts with
  | [] => []
  | AppendChunk c :: acts' => c :: chunks_of acts'
  | _ :: acts' => chunks_of acts'
  end.

(** Actions of the streaming phase: appends, reads and display frames. *)
Definition streaming (a : action) : bool :=
  match a with
  | AppendChunk _ | GetCurrentText | AnimationFrame => true
  | Finish | Reset | Destroy => false
  end.

(** Calls a chunk source may still make after [finish()]. *)
Definition late_call (a : action) : bool :=
  match a with
  | AppendChunk _ | GetCurrentText | Finish => true
  | AnimationFrame | Reset | Destroy => false
  end.

Definition is_reset (a : action) : bool :=
  match a with Reset => true | _ => false end.

Definition is_teardown (a : action) : bool :=
  match a with Reset | Destroy => true | _ => false end.

Definition is_frame (a : action) : bool :=
  match a with AnimationFrame => true | _ => false end.

Definition no_reset (a : action) : bool := negb (is_reset a).
Definition no_teardown (a : action) : bool := negb (is_teardown a).

Section Vocabulary.

Variable options : StreamRendererOptions.

(** Worlds a program can be in: a renderer constructed on some page, then
    driven by any actions. *)
Inductive reachable : World -> Prop :=
| reachable_new content contain willChange :
    reachable (new_StreamRenderer options (page content contain willChange))
| reachable_step a w : reachable w -> reachable (step options a w).

(** A lifecycle starts at construction or at [reset()]. *)
Inductive lifecycle_start : World -> Prop :=
| start_new content contain willChange :
    lifecycle_start (new_StreamRenderer options (page content contain willChange))
| start_reset w : reachable w -> lifecycle_start (step options Reset w).

(** The effects of one render of [buf], given the text node held. *)
Definition rendering (tn : option nat) (buf : jsstring) : list event :=
  match useTextNode options, tn with
  | true, Some id => [DomWrite (TextNodeData id) buf]
  | _, _ =>
      match markdownParser options buf with
      | Normal parsed => [DomWrite ContainerInnerHTML parsed]
      | Throw e =>
          [ConsoleWarn "Error parsing markdown, falling back to plain text:"
             (Some e);
           DomWrite ContainerTextContent buf]
      end
  end.

(** What the surface shows after a render of [buf]. *)
Definition display_of (tn : option nat) (buf : jsstring) : list rendered :=
  match useTextNode options, tn with
  | true, Some _ => [ShowsText buf]
  | _, _ =>
      match markdownParser options buf with
      | Normal parsed => if truthy parsed then [ShowsMarkup parsed] else []
      | Throw _ => if truthy buf then [ShowsText buf] else []
      end
  end.

(** The world after one render: the effects are logged; in text mode the
    held node takes the buffer, otherwise the container takes the parsed
    markup, or the buffer as plain text when the parser throws. *)
Definition after_render (w : World) : World :=
  match useTextNode options, textNode w with
  | true, Some id =>
      set_log (log w ++ rendering (textNode w) (textBuffer w))
        (set_nodes (list_update id (textBuffer w) (nodes w)) w)
  | _, _ =>
      set_log (log w ++ rendering (textNode w) (textBuffer w))
        (set_children
           (match markdownParser options (textBuffer w) with
            | Normal parsed => if truthy parsed then [ParsedMarkup parsed] else []
            | Throw _ =>
                if truthy (textBuffer w) then [AnonText (textBuffer w)] else []
            end) w)
  end.

(** The world after the change-detection step of a frame callback. *)
Definition after_update (w : World) : World :=
  if negb (jsstring_eqb (textBuffer w) (lastRenderedText w)) then
    set_log (log (after_render w) ++ [CalledOnUpdate (textBuffer w)])
      (set_lastRenderedText (textBuffer w) (after_render w))
  else w.

(** The next callback queued under a fresh handle. *)
Definition scheduled (w : World) : World :=
  set_rafId (Some (S (raf_handle w)))
    (set_raf_queue (raf_queue w ++ [S (raf_handle w)])
       (set_raf_handle (S (raf_handle w)) w)).

(** The callback named by [rafId], if any, cancelled and forgotten. *)
Definition cancelled (w : World) : World :=
  match rafId w with
  | Some h => set_rafId None (set_raf_queue (remove Nat.eq_dec h (raf_queue w)) w)
  | None => w
  end.

Definition after_cleanup (w : World) : World :=
  set_log (log (cancelled w) ++ [CalledOnComplete (textBuffer w)]) (cancelled w).

(** The world after one run of the frame callback. *)
Definition after_callback (w : World) : World :=
  if negb (isFinished w) then scheduled (after_update w)
  else after_cleanup (after_render (after_update w)).

Definition after_destroy (w : World) : World :=
  set_isFinished true (set_textNode None (cancelled w)).

(** Invariant of reachable worlds.  At most the callback named by [rafId]
    is pending; an unfinished renderer has its callback pending; in text
    mode the held text node is the container's only child, and it is given
    up only by [destroy()]; in markup mode no text node is held. *)
Definition loop_ok (w : World) : Prop :=
  match raf_queue w with
  | [] => True
  | [h] => rafId w = Some h
  | _ :: _ :: _ => False
  end.

Definition text_node_ok (w : World) : Prop :=
  if useTextNode options then
    match textNode w with
    | Some id => children w = [TextNodeRef id] /\ id < List.length (nodes w)
    | None => isFinished w = true /\ raf_queue w = []
    end
  else textNode w = None.

Definition wf (w : World) : Prop :=
  loop_ok w /\ (isFinished w = false -> raf_queue w <> []) /\ text_node_ok w.

End Vocabulary.

(* ------------------------------------------------------------------ *)
(** *** Observations used by the further properties *)

(** Calls out of the renderer that the page can observe without looking at
    node identities: [onUpdate], [onComplete], console warnings, and
    exceptions that escape. *)
Definition is_callback (e : event) : bool :=
  match e with
  | CalledOnUpdate _ | CalledOnComplete _ | ConsoleWarn _ _ | Uncaught _ => true
  | DomWrite _ _ | DomAppendChild _ => false
  end.

Definition callbacks (l : list event) : list event := filter is_callback l.



(** No child of the container is a text node appended by the renderer. *)
Definition no_node_ref (l : list child) : bool :=
  forallb (fun c => match c with TextNodeRef _ => false | _ => true end) l.

(** Two worlds a page cannot tell apart by reading the text, the phase and
    the display surface. *)
Definition similar (a b : World) : Prop :=
  textBuffer a = textBuffer b /\
  lastRenderedText a = lastRenderedText b /\
  isFinished a = isFinished b /\
  (raf_queue a = [] <-> raf_queue b = []) /\
  (textNode a = None <-> textNode b = None) /\
  surface a = surface b.

(** A scan state that scanning [seen] from the reset state arrives at,
    without a cut: the scan of any continuation can be resumed from it. *)
Definition resumable (seen : jsstring) (openBraces : Z)
    (objectStart : option nat) : Prop :=
  forall rest,
    scan_objects (seen ++ rest) [] 0%Z None
    = scan_objects rest seen openBraces objectStart.

(** A candidate object: an opening brace, a body, a closing brace. *)
Definition object_shaped (obj : jsstring) : Prop :=
  exists body, obj = open_brace :: body ++ [close_brace].

(* ================================================================== *)
(** ** Strings: basic facts *)
(* ================================================================== *)

Lemma jsstring_eqb_eq (a b : jsstring) : jsstring_eqb a b = true <-> a = b.
Proof.
  unfold jsstring_eqb. destruct (list_eq_dec N.eq_dec a b); split; congruence.
Qed.

Lemma jsstring_eqb_refl (a : jsstring) : jsstring_eqb a a = true.
Proof. apply jsstring_eqb_eq. reflexivity. Qed.

Lemma jsstring_eqb_neq (a b : jsstring) : jsstring_eqb a b = false <-> a <> b.
Proof.
  unfold jsstring_eqb. destruct (list_eq_dec N.eq_dec a b); split; congruence.
Qed.

Lemma line_break_is_white_space (c : N) :
  is_line_break c = true -> is_white_space c = true.
Proof.
  unfold is_line_break, CR, LF. intros H.
  apply orb_true_iff in H. destruct H as [H | H]; apply N.eqb_eq in H; subst;
    reflexivity.
Qed.

Lemma line_break_not_separator (c : N) :
  is_line_break c = true -> is_separator c = false.
Proof.
  unfold is_line_break, CR, LF. intros H.
  apply orb_true_iff in H. destruct H as [H | H]; apply N.eqb_eq in H; subst;
    reflexivity.
Qed.

Lemma separator_not_line_break (c : N) :
  is_separator c = true -> is_line_break c = false.
Proof.
  intros H. destruct (is_line_break c) eqn:E; [|reflexivity].
  apply line_break_not_separator in E. congruence.
Qed.

Lemma separator_not_white_space (c : N) :
  is_separator c = true -> is_white_space c = false.
Proof.
  unfold is_separator. intros H.
  apply orb_true_iff in H. destruct H as [H | H]; apply N.eqb_eq in H; subst;
    reflexivity.
Qed.

Lemma drop_while_all (p : N -> bool) (a b : jsstring) :
  forallb p a = true -> drop_while p (a ++ b) = drop_while p b.
Proof.
  induction a as [|c a IH]; simpl; intros H; [reflexivity|].
  apply andb_true_iff in H. destruct H as [Hc Ha]. rewrite Hc. auto.
Qed.

Lemma trimEnd_line_breaks (a l : jsstring) :
  forallb is_line_break l = true -> trimEnd (a ++ l) = trimEnd a.
Proof.
  intros H. unfold trimEnd. rewrite rev_app_distr. f_equal.
  apply drop_while_all.
  rewrite forallb_forall in *. intros c Hc.
  apply line_break_is_white_space, H, in_rev, Hc.
Qed.

Lemma trim_line_breaks (a l : jsstring) :
  forallb is_line_break l = true -> trim (a ++ l) = trim a.
Proof. intros H. unfold trim. now rewrite trimEnd_line_breaks. Qed.

(* ================================================================== *)
(** ** The matcher *)
(* ================================================================== *)

Lemma try_down_Some (A : Type) (k : nat -> option A) (lo n : nat) (r : A) :
  try_down k lo n = Some r -> exists m, lo <= m <= n /\ k m = Some r.
Proof.
  induction n as [|n IH]; simpl.
  - destruct (0 <? lo) eqn:E; [discriminate|].
    apply Nat.ltb_ge in E. destruct (k 0) eqn:K; [|discriminate].
    intros H. exists 0. split; [lia|congruence].
  - destruct (S n <? lo) eqn:E; [discriminate|].
    apply Nat.ltb_ge in E. destruct (k (S n)) eqn:K.
    + intros H. exists (S n). split; [lia|congruence].
    + intros H. destruct (IH H) as (m & Hm & Hk). exists m. split; [lia|exact Hk].
Qed.

Lemma try_down_None (A : Type) (k : nat -> option A) (lo n : nat) :
  try_down k lo n = None -> forall m, lo <= m <= n -> k m = None.
Proof.
  induction n as [|n IH]; simpl.
  - destruct (0 <? lo) eqn:E.
    + apply Nat.ltb_lt in E. intros _ m Hm. lia.
    + destruct (k 0) eqn:K; [discriminate|].
      intros _ m Hm. assert (m = 0) by lia. subst. exact K.
  - destruct (S n <? lo) eqn:E.
    + apply Nat.ltb_lt in E. intros _ m Hm. lia.
    + destruct (k (S n)) eqn:K; [discriminate|].
      intros H m Hm. destruct (Nat.eq_dec m (S n)) as [->|Hne]; [exact K|].
      apply IH; [exact H|lia].
Qed.

Lemma match_here_sound (p : pattern) :
  forall s n, match_here p s = Some n -> Matches p s n.
Proof.
  induction p as [|t p IH]; intros s n H; simpl in H.
  - injection H as <-. constructor.
  - destruct t as [cls lo hi|].
    + apply try_down_Some in H. destruct H as (m & Hm & Hk).
      destruct (match_here p (skipn m s)) as [n'|] eqn:E; [|discriminate].
      simpl in Hk. injection Hk as <-.
      constructor; [lia|lia|]. apply IH. exact E.
    + destruct s; [|discriminate]. constructor. apply IH. exact H.
Qed.

Lemma match_here_complete (p : pattern) :
  forall s n, Matches p s n -> exists n', match_here p s = Some n'.
Proof.
  intros s n H. induction H as [s|p n H IH|cls lo hi p s m n Hlo Hhi H IH].
  - exists 0. reflexivity.
  - exact IH.
  - simpl.
    destruct (try_down
                (fun n0 => option_map (Nat.add n0) (match_here p (skipn n0 s)))
                lo (greedy_count cls hi s)) as [r|] eqn:E.
    + exists r. reflexivity.
    + pose proof (@try_down_None _ _ _ _ E m (conj Hlo Hhi)) as K.
      simpl in K. destruct IH as [n' Hn']. rewrite Hn' in K. discriminate.
Qed.

Lemma Matches_length (p : pattern) (s : jsstring) (n : nat) :
  Matches p s n -> n <= List.length s.
Proof.
  intros H. induction H as [s|p n H IH|cls lo hi p s m n Hlo Hhi H IH].
  - lia.
  - exact IH.
  - rewrite length_skipn in IH.
    assert (m <= List.length s); [|lia].
    assert (C : forall c t, count_prefix c t <= List.length t).
    { intros c t. induction t as [|x t IHt]; simpl; [lia|].
      destruct (c x); simpl; lia. }
    specialize (C cls s). destruct hi; simpl in Hhi; lia.
Qed.

Lemma count_prefix_firstn (cls : N -> bool) (m : nat) :
  forall s, m <= count_prefix cls s ->
            forallb cls (firstn m s) = true /\ List.length (firstn m s) = m.
Proof.
  induction m as [|m IH]; intros s H; [split; reflexivity|].
  destruct s as [|c s]; simpl in H; [lia|].
  destruct (cls c) eqn:E; [|lia].
  destruct (IH s) as [Ha Hl]; [lia|].
  simpl. rewrite E, Ha, Hl. split; reflexivity.
Qed.

Lemma count_prefix_app (cls : N -> bool) (a b : jsstring) :
  forallb cls a = true -> List.length a <= count_prefix cls (a ++ b).
Proof.
  induction a as [|c a IH]; simpl; intros H; [lia|].
  apply andb_true_iff in H. destruct H as [Hc Ha]. rewrite Hc.
  specialize (IH Ha). lia.
Qed.

Lemma skipn_length_app (a b : jsstring) : skipn (List.length a) (a ++ b) = b.
Proof. induction a; simpl; auto. Qed.

(* ================================================================== *)
(** ** The trailing-rule pattern *)
(* ================================================================== *)

Lemma Matches_rule_block (s : jsstring) (n : nat) :
  Matches trailing_rule s n -> n = List.length s /\ rule_block s.
Proof.
  unfold trailing_rule. intros H.
  inversion H as [| |? ? ? ? ? m1 n1 Hlo1 Hhi1 H1]; subst; clear H.
  inversion H1 as [| |? ? ? ? ? m2 n2 Hlo2 Hhi2 H2]; subst; clear H1.
  inversion H2 as [| |? ? ? ? ? m3 n3 Hlo3 Hhi3 H3]; subst; clear H2.
  simpl in Hhi1, Hhi2, Hhi3.
  set (s1 := skipn m1 s) in *. set (s2 := skipn m2 s1) in *.
  remember (skipn m3 s2) as s3 eqn:E.
  inversion H3 as [|? ? H4|]; subst s3 n3; clear H3.
  match goal with K : [] = skipn m3 s2 |- _ => rename K into E' end.
  inversion H4; subst; clear H4.
  destruct (count_prefix_firstn _ _ Hhi1) as [A1 L1].
  destruct (count_prefix_firstn _ _ Hhi2) as [A2 L2].
  destruct (count_prefix_firstn _ _ Hhi3) as [A3 L3].
  assert (Es : s = firstn m1 s ++ firstn m2 s1 ++ firstn m3 s2).
  { rewrite <- (firstn_skipn m1 s) at 1. f_equal. fold s1.
    rewrite <- (firstn_skipn m2 s1) at 1. f_equal. fold s2.
    rewrite <- (firstn_skipn m3 s2) at 1. rewrite <- E'. now rewrite app_nil_r. }
  split.
  - apply (f_equal (@List.length N)) in Es.
    rewrite !length_app, L1, L2, L3 in Es. lia.
  - exists (firstn m1 s), (firstn m2 s1), (firstn m3 s2).
    repeat split; try assumption; try lia.
    intros C. rewrite C in L1. simpl in L1. lia.
Qed.

Lemma rule_block_Matches (s : jsstring) :
  rule_block s -> Matches trailing_rule s (List.length s).
Proof.
  intros (l1 & run & l2 & -> & Hne & A1 & Hlen & A2 & A3).
  rewrite !length_app. unfold trailing_rule.
  constructor.
  - destruct l1; [congruence|simpl; lia].
  - simpl. now apply count_prefix_app.
  - rewrite skipn_length_app. constructor.
    + exact Hlen.
    + simpl. now apply count_prefix_app.
    + rewrite skipn_length_app.
      replace (List.length l2) with (List.length l2 + 0) by lia.
      constructor.
      * lia.
      * simpl. rewrite <- (app_nil_r l2) at 2. now apply count_prefix_app.
      * rewrite skipn_all. repeat constructor.
Qed.

Lemma match_here_rule_Some (s : jsstring) (n : nat) :
  match_here trailing_rule s = Some n -> n = List.length s /\ rule_block s.
Proof. intros H. apply Matches_rule_block, match_here_sound, H. Qed.

Lemma match_here_rule_block (s : jsstring) :
  rule_block s -> match_here trailing_rule s = Some (List.length s).
Proof.
  intros H. destruct (match_here_complete (rule_block_Matches H)) as [n Hn].
  rewrite Hn. f_equal. now apply match_here_rule_Some in Hn.
Qed.

Lemma match_here_not_rule (s : jsstring) :
  ~ rule_block s -> match_here trailing_rule s = None.
Proof.
  intros H. destruct (match_here trailing_rule s) eqn:E; [|reflexivity].
  apply match_here_rule_Some in E. tauto.
Qed.

Lemma rule_block_dec (s : jsstring) : {rule_block s} + {~ rule_block s}.
Proof.
  destruct (match_here trailing_rule s) eqn:E.
  - left. now apply match_here_rule_Some in E.
  - right. intros H. apply match_here_rule_block in H. congruence.
Qed.

Lemma rule_block_nonempty (s : jsstring) : rule_block s -> s <> [].
Proof.
  intros (l1 & run & l2 & -> & Hne & _). destruct l1; [congruence|discriminate].
Qed.

(* ================================================================== *)
(** ** The replace scan on the trailing-rule pattern *)
(* ================================================================== *)

Lemma replace_scan_0 (p : pattern) (repl s : jsstring) :
  replace_scan p repl s 0 =
  match match_here p s with
  | Some (S n) =>
      repl ++ match s with [] => [] | _ :: s' => replace_scan p repl s' n end
  | Some 0 =>
      repl ++ match s with [] => [] | c :: s' => c :: replace_scan p repl s' 0 end
  | None =>
      match s with [] => [] | c :: s' => c :: replace_scan p repl s' 0 end
  end.
Proof. destruct s; reflexivity. Qed.

Lemma replace_scan_drop (p : pattern) (repl s : jsstring) :
  replace_scan p repl s (List.length s) = replace_scan p repl [] 0.
Proof. induction s as [|c s IH]; [reflexivity|exact IH]. Qed.

Lemma replace_all_rule_block (t : jsstring) :
  rule_block t -> replace_all trailing_rule [] t = [].
Proof.
  intros H. unfold replace_all. rewrite replace_scan_0.
  rewrite (match_here_rule_block H).
  destruct t as [|c t]; [reflexivity|].
  cbn [List.length app]. apply replace_scan_drop.
Qed.

(** In a run of separators followed by line breaks, no line break comes
    before a separator. *)
Lemma separators_then_breaks (run l2 : jsstring) :
  forallb is_separator run = true -> forallb is_line_break l2 = true ->
  forall u b v c w,
    run ++ l2 = u ++ b :: v ++ c :: w ->
    is_line_break b = true -> is_separator c = true -> False.
Proof.
  induction run as [|r run IH]; simpl; intros Hr Hl u b v c w E Hb Hc.
  - assert (In c l2) by (rewrite E; apply in_or_app; right; right;
                         apply in_or_app; right; left; reflexivity).
    rewrite forallb_forall in Hl.
    apply separator_not_line_break in Hc. rewrite Hl in Hc by assumption.
    discriminate.
  - apply andb_true_iff in Hr. destruct Hr as [Hr Hrun].
    destruct u as [|x u]; simpl in E; injection E as -> E.
    + apply line_break_not_separator in Hb. congruence.
    + eapply IH; eauto.
Qed.

(** A rule block extended to the left is a rule block only if the extension
    consists of line breaks. *)
Lemma rule_block_extension (x t : jsstring) :
  rule_block (x ++ t) -> rule_block t -> forallb is_line_break x = true.
Proof.
  induction x as [|c x IH]; intros Hxt Ht; [reflexivity|].
  destruct Hxt as (l1 & run & l2 & E & Hne & A1 & Hlen & A2 & A3).
  destruct l1 as [|a l1]; [congruence|].
  simpl in E. injection E as <- E.
  simpl in A1. apply andb_true_iff in A1. destruct A1 as [Hc A1].
  simpl. rewrite Hc. simpl.
  destruct l1 as [|a' l1].
  - exfalso. simpl in E.
    destruct Ht as (m1 & r2 & m2 & -> & Hne' & B1 & Hlen' & B2 & B3).
    destruct m1 as [|b m1]; [congruence|].
    destruct r2 as [|s r2]; [simpl in Hlen'; lia|].
    simpl in B1, B2.
    apply andb_true_iff in B1. apply andb_true_iff in B2.
    apply (@separators_then_breaks run l2 A2 A3 x b m1 s (r2 ++ m2)); try tauto.
    rewrite <- E. reflexivity.
  - apply IH; [|exact Ht].
    exists (a' :: l1), run, l2. repeat split; try assumption. discriminate.
Qed.

Lemma replace_all_prefix (p t : jsstring) :
  rule_block t ->
  exists l, forallb is_line_break l = true /\
            p = replace_all trailing_rule [] (p ++ t) ++ l.
Proof.
  intros Ht. induction p as [|c p IH].
  - exists []. simpl. rewrite (replace_all_rule_block Ht). split; reflexivity.
  - destruct (rule_block_dec ((c :: p) ++ t)) as [Hb|Hb].
    + exists (c :: p). rewrite (replace_all_rule_block Hb). split; [|reflexivity].
      eapply rule_block_extension; eauto.
    + destruct IH as (l & Hl & E). exists l. split; [exact Hl|].
      unfold replace_all in *. rewrite replace_scan_0.
      rewrite (match_here_not_rule Hb). simpl. now rewrite <- E.
Qed.

Lemma replace_all_no_rule (s : jsstring) :
  (forall q t, s = q ++ t -> ~ rule_block t) ->
  replace_all trailing_rule [] s = s.
Proof.
  unfold replace_all. induction s as [|c s IH]; intros H; [reflexivity|].
  rewrite replace_scan_0.
  rewrite (match_here_not_rule (H [] (c :: s) eq_refl)).
  f_equal. apply IH. intros q t ->. apply (H (c :: q) t). reflexivity.
Qed.

(** Every string has a stripped form. *)
Lemma stripped_total (text : jsstring) : exists p, stripped text p.
Proof.
  assert (D : (exists q t, text = q ++ t /\ rule_block t) \/
              (forall q t, text = q ++ t -> ~ rule_block t)).
  { induction text as [|c s IH].
    - right. intros q t E. symmetry in E. apply app_eq_nil in E.
      destruct E as [_ ->]. intros H. now apply rule_block_nonempty in H.
    - destruct (rule_block_dec (c :: s)) as [Hb|Hb].
      + left. exists [], (c :: s). split; [reflexivity|exact Hb].
      + destruct IH as [(q & t & -> & Ht)|Hn].
        * left. exists (c :: q), t. split; [reflexivity|exact Ht].
        * right. intros q t E. destruct q as [|x q]; simpl in E.
          -- subst t. exact Hb.
          -- injection E as -> ->. apply (Hn q t). reflexivity. }
  destruct D as [(q & t & -> & Ht)|Hn].
  - exists q. now constructor.
  - exists text. now constructor.
Qed.

(* ================================================================== *)
(** ** The default sanitizer *)
(* ================================================================== *)

(** C1 (amended): the default sanitizer maps every input to the trimmed
    result of removing its trailing rule block, that is a run of three or
    more [-] or [=] characters preceded by at least one line break and
    optionally followed by line breaks; an input no suffix of which is such
    a block is only trimmed. *)
Theorem defaultSanitize_strips_trailing_rule (text p : jsstring) :
  stripped text p -> defaultSanitize text = trim p.
Proof.
  intros H. unfold defaultSanitize. destruct H as [p t Ht|text Hn].
  - destruct (replace_all_prefix p Ht) as (l & Hl & E).
    rewrite E at 2. now rewrite trim_line_breaks.
  - now rewrite replace_all_no_rule.
Qed.

Lemma defaultSanitize_strips_trailing_rule_witness :
  defaultSanitize (js "A" ++ ([LF] ++ js "---" ++ [LF])) = trim (js "A").
Proof.
  apply defaultSanitize_strips_trailing_rule.
  apply stripped_rule.
  exists [LF], (js "---"), [LF].
  repeat split; simpl; try reflexivity; try lia; discriminate.
Defined.

(** C1, as stated, fails: a trailing run with no line break before it is
    kept, while the sanitizer of the specification's wording removes it. *)
Lemma defaultSanitize_keeps_unbroken_run :
  defaultSanitize (js "A---") = js "A---" /\
  sanitize_optional_break (js "A---") = js "A" /\
  defaultSanitize (js "A---") <> sanitize_optional_break (js "A---").
Proof.
  split; [reflexivity|]. split; [reflexivity|]. discriminate.
Qed.

Lemma drop_while_head (p : N -> bool) (s : jsstring) :
  match s with [] => True | c :: _ => p c = false end -> drop_while p s = s.
Proof. destruct s as [|c s]; simpl; intros H; [reflexivity|now rewrite H]. Qed.

Lemma trimEnd_separator_run (a run : jsstring) :
  run <> [] -> forallb is_separator run = true ->
  trimEnd (a ++ run) = a ++ run.
Proof.
  intros Hne Hrun. unfold trimEnd.
  rewrite drop_while_head; [apply rev_involutive|].
  rewrite rev_app_distr.
  destruct (rev run) as [|c r] eqn:E.
  - apply (f_equal (@rev N)) in E. rewrite rev_involutive in E. contradiction.
  - simpl. apply separator_not_white_space.
    rewrite forallb_forall in Hrun. apply Hrun, in_rev. rewrite E. now left.
Qed.

Lemma trimStart_separator_run (a run : jsstring) :
  run <> [] -> forallb is_separator run = true ->
  exists q, trimStart (a ++ run) = q ++ run.
Proof.
  intros Hne Hrun. unfold trimStart. induction a as [|c a IH]; simpl.
  - exists []. destruct run as [|x run]; [contradiction|].
    simpl in Hrun. apply andb_true_iff in Hrun. destruct Hrun as [Hx _].
    simpl. now rewrite (separator_not_white_space _ Hx).
  - destruct (is_white_space c); [exact IH|]. now exists (c :: a).
Qed.

(** C10: one application removes one trailing rule block.  Whatever comes
    before the last line-break-prefixed run stays, even when it ends in a
    separator run of its own, and then the result still ends with that run;
    the stripped run is any mix of [-] and [=]. *)
Theorem defaultSanitize_strips_one_block (p run1 l1 run2 l2 : jsstring) :
  forallb is_separator run1 = true ->
  l1 <> [] -> forallb is_line_break l1 = true ->
  3 <= List.length run2 -> forallb is_separator run2 = true ->
  forallb is_line_break l2 = true ->
  defaultSanitize (p ++ run1 ++ l1 ++ run2 ++ l2) = trim (p ++ run1) /\
  (run1 <> [] ->
   exists q, defaultSanitize (p ++ run1 ++ l1 ++ run2 ++ l2) = q ++ run1).
Proof.
  intros H1 Hne Hl1 Hlen H2 Hl2.
  assert (E : defaultSanitize (p ++ run1 ++ l1 ++ run2 ++ l2) = trim (p ++ run1)).
  { unfold defaultSanitize.
    assert (B : rule_block (l1 ++ run2 ++ l2))
      by (exists l1, run2, l2; repeat split; assumption).
    destruct (replace_all_prefix (p ++ run1) B) as (l & Hl & El).
    rewrite <- app_assoc in El. rewrite El at 1. now rewrite trim_line_breaks. }
  split; [exact E|].
  intros Hrun. rewrite E. unfold trim.
  rewrite trimEnd_separator_run by assumption.
  now apply trimStart_separator_run.
Qed.

Lemma defaultSanitize_strips_one_block_witness :
  (defaultSanitize (js "A" ++ [LF] ++ js "---" ++ [LF] ++ js "---")
   = js "A" ++ [LF] ++ js "---") /\
  (defaultSanitize (js "A" ++ [LF] ++ js "-=-") = js "A").
Proof.
  split.
  - apply (proj1 (@defaultSanitize_strips_one_block
                    (js "A" ++ [LF]) (js "---") [LF] (js "---") []
                    eq_refl ltac:(discriminate) eq_refl ltac:(simpl; lia)
                    eq_refl eq_refl)).
  - apply (proj1 (@defaultSanitize_strips_one_block
                    (js "A") [] [LF] (js "-=-") []
                    eq_refl ltac:(discriminate) eq_refl ltac:(simpl; lia)
                    eq_refl eq_refl)).
Defined.

(* ================================================================== *)
(** ** Methods, one call at a time *)
(* ================================================================== *)

Section Methods.

Variable o : StreamRendererOptions.

Lemma remove_single (h : nat) : remove Nat.eq_dec h [h] = [].
Proof. simpl. destruct (Nat.eq_dec h h); [reflexivity|contradiction]. Qed.

Lemma list_update_length (A : Type) (i : nat) (v : A) (l : list A) :
  List.length (list_update i v l) = List.length l.
Proof.
  revert i. induction l as [|x l IH]; intros [|i]; simpl; auto.
Qed.

Lemma list_update_nth (A : Type) (i : nat) (v d : A) (l : list A) :
  i < List.length l -> nth i (list_update i v l) d = v.
Proof.
  revert i. induction l as [|x l IH]; intros [|i]; simpl; intros H;
    try lia; auto. apply IH. lia.
Qed.

Lemma appendChunk_eq (c : jsstring) (w : World) :
  appendChunk c w =
  (Normal tt,
   if isFinished w
   then set_log
          (log w ++
           [ConsoleWarn
              "StreamRenderer: Cannot append chunk after finish() has been called"
              None]) w
   else set_textBuffer (textBuffer w ++ c) w).
Proof.
  unfold appendChunk, bind, get, console_warn, emit, modify.
  destruct (isFinished w); reflexivity.
Qed.

Lemma finish_eq (w : World) :
  finish o w =
  (Normal tt,
   if isFinished w then w
   else set_textBuffer (sanitize o (textBuffer w)) (set_isFinished true w)).
Proof.
  unfold finish, bind, get, modify, ret.
  destruct (isFinished w); reflexivity.
Qed.

Lemma renderToDOM_eq (w : World) :
  renderToDOM o w = (Normal tt, after_render o w).
Proof.
  unfold renderToDOM, after_render, rendering, bind, get.
  destruct (useTextNode o), (textNode w) as [id|];
    try reflexivity;
    unfold try_catch, bind, get, call, set_innerHTML, set_textContent,
      console_warn, emit, modify, bind;
    destruct (markdownParser o (textBuffer w)); cbn;
    rewrite <- ?app_assoc; reflexivity.
Qed.

Lemma after_render_fields (w : World) :
  textBuffer (after_render o w) = textBuffer w /\
  lastRenderedText (after_render o w) = lastRenderedText w /\
  rafId (after_render o w) = rafId w /\
  isFinished (after_render o w) = isFinished w /\
  textNode (after_render o w) = textNode w /\
  raf_queue (after_render o w) = raf_queue w /\
  raf_handle (after_render o w) = raf_handle w /\
  log (after_render o w) = log w ++ rendering o (textNode w) (textBuffer w).
Proof.
  unfold after_render.
  destruct (useTextNode o), (textNode w) eqn:E; cbn; rewrite ?E;
    repeat split; reflexivity.
Qed.

Lemma cleanup_eq (w : World) : cleanup w = (Normal tt, after_cleanup w).
Proof.
  unfold cleanup, after_cleanup, cancelled, bind, get, onComplete, emit,
    cancelAnimationFrame, modify, ret.
  destruct (rafId w); reflexivity.
Qed.

Lemma bind_eq (A B : Type) (m : M A) (k : A -> M B) (w w' : World) (a : A) :
  m w = (Normal a, w') -> bind m k w = k a w'.
Proof. unfold bind. now intros ->. Qed.

Lemma bind_get (A B : Type) (f : World -> A) (k : A -> M B) (w : World) :
  bind (get f) k w = k (f w) w.
Proof. reflexivity. Qed.

Lemma bind_modify (B : Type) (f : World -> World) (k : unit -> M B) (w : World) :
  bind (modify f) k w = k tt (f w).
Proof. reflexivity. Qed.

Lemma update_block_eq (b : bool) (w : World) :
  (if b then
     renderToDOM o ;;
     buf <- get textBuffer ;;
     modify (set_lastRenderedText buf) ;;
     buf <- get textBuffer ;;
     onUpdate buf
   else ret tt) w =
  (Normal tt,
   if b then
     set_log (log (after_render o w) ++ [CalledOnUpdate (textBuffer w)])
       (set_lastRenderedText (textBuffer w) (after_render o w))
   else w).
Proof.
  destruct b; [|reflexivity].
  destruct (after_render_fields w) as (Eb & _).
  rewrite (@bind_eq _ _ _ _ _ _ _ (renderToDOM_eq w)).
  rewrite bind_get, bind_modify, bind_get.
  unfold onUpdate, emit, modify. cbn. now rewrite Eb.
Qed.

Lemma render_eq (w : World) : render o w = (Normal tt, after_callback o w).
Proof.
  unfold render. rewrite !bind_get.
  rewrite (@bind_eq _ _ _ _ _ _ _ (update_block_eq _ w)).
  fold (after_update o w). rewrite bind_get.
  assert (Ef : isFinished (after_update o w) = isFinished w).
  { unfold after_update.
    destruct (negb (jsstring_eqb (textBuffer w) (lastRenderedText w)));
      [|reflexivity].
    cbn. apply after_render_fields. }
  rewrite Ef. unfold after_callback.
  destruct (isFinished w); cbn [negb].
  - rewrite (@bind_eq _ _ _ _ _ _ _ (renderToDOM_eq _)). apply cleanup_eq.
  - reflexivity.
Qed.

Lemma destroy_eq (w : World) : destroy w = (Normal tt, after_destroy w).
Proof.
  unfold destroy, after_destroy, cancelled, bind, get, cancelAnimationFrame,
    modify, ret.
  destruct (rafId w); reflexivity.
Qed.

Lemma exec_Normal (m : M unit) (w w' : World) :
  m w = (Normal tt, w') -> exec m w = w'.
Proof. unfold exec. now intros ->. Qed.

Lemma step_AppendChunk (c : jsstring) (w : World) :
  step o (AppendChunk c) w =
  if isFinished w
  then set_log
         (log w ++
          [ConsoleWarn
             "StreamRenderer: Cannot append chunk after finish() has been called"
             None]) w
  else set_textBuffer (textBuffer w ++ c) w.
Proof. apply exec_Normal, appendChunk_eq. Qed.

Lemma step_Finish (w : World) :
  step o Finish w =
  if isFinished w then w
  else set_textBuffer (sanitize o (textBuffer w)) (set_isFinished true w).
Proof. apply exec_Normal, finish_eq. Qed.

Lemma step_GetCurrentText (w : World) : step o GetCurrentText w = w.
Proof. reflexivity. Qed.

Lemma step_Destroy (w : World) : step o Destroy w = after_destroy w.
Proof. apply exec_Normal, destroy_eq. Qed.

Lemma animationFrame_idle (w : World) :
  raf_queue w = [] -> animationFrame o w = w.
Proof. unfold animationFrame. now intros ->. Qed.

Lemma animationFrame_one (w : World) (h : nat) :
  raf_queue w = [h] ->
  animationFrame o w = after_callback o (set_raf_queue [] w).
Proof.
  unfold animationFrame. intros E. rewrite E.
  cbn [run_callbacks]. rewrite E. cbn [existsb]. rewrite Nat.eqb_refl.
  cbn [orb]. rewrite remove_single.
  apply exec_Normal, render_eq.
Qed.

Lemma after_update_fields (w : World) :
  textBuffer (after_update o w) = textBuffer w /\
  lastRenderedText (after_update o w) = textBuffer w /\
  rafId (after_update o w) = rafId w /\
  isFinished (after_update o w) = isFinished w /\
  textNode (after_update o w) = textNode w /\
  raf_queue (after_update o w) = raf_queue w /\
  raf_handle (after_update o w) = raf_handle w /\
  log (after_update o w) =
    log w ++
    (if jsstring_eqb (textBuffer w) (lastRenderedText w) then []
     else rendering o (textNode w) (textBuffer w) ++
          [CalledOnUpdate (textBuffer w)]).
Proof.
  unfold after_update.
  destruct (after_render_fields w) as (Eb & El & Er & Ef & En & Eq & Eh & Eg).
  destruct (jsstring_eqb (textBuffer w) (lastRenderedText w)) eqn:E; cbn.
  - apply jsstring_eqb_eq in E. rewrite app_nil_r. repeat split; auto.
  - rewrite Eg, <- app_assoc. repeat split; auto.
Qed.

Lemma text_node_ok_after_render (w : World) :
  text_node_ok o w -> text_node_ok o (after_render o w).
Proof.
  unfold text_node_ok, after_render.
  destruct w as [buf last raf fin tn ch sc sw nd q hd lg]. cbn.
  destruct (useTextNode o); [|intros ->; exact eq_refl].
  destruct tn as [id|]; cbn; [|exact (fun H => H)].
  now rewrite list_update_length.
Qed.

Lemma text_node_ok_dequeued (w : World) :
  text_node_ok o w -> text_node_ok o (set_raf_queue [] w).
Proof.
  unfold text_node_ok. destruct w as [buf last raf fin tn ch sc sw nd q hd lg].
  cbn. destruct (useTextNode o); [|exact (fun H => H)].
  destruct tn; [exact (fun H => H)|]. intros [H _]. split; [exact H|reflexivity].
Qed.

Lemma text_node_ok_after_update (w : World) :
  text_node_ok o w -> text_node_ok o (after_update o w).
Proof.
  intros H. unfold after_update.
  destruct (negb (jsstring_eqb (textBuffer w) (lastRenderedText w)));
    [|exact H].
  apply text_node_ok_after_render in H.
  unfold text_node_ok in *. exact H.
Qed.

Lemma text_node_ok_ext (w w' : World) :
  text_node_ok o w ->
  textNode w' = textNode w ->
  children w' = children w ->
  List.length (nodes w') = List.length (nodes w) ->
  (isFinished w = true -> raf_queue w = [] ->
   isFinished w' = true /\ raf_queue w' = []) ->
  text_node_ok o w'.
Proof.
  unfold text_node_ok. intros H -> -> -> K.
  destruct (useTextNode o); [|exact H].
  destruct (textNode w); [exact H|]. destruct H. auto.
Qed.

End Methods.

(* ================================================================== *)
(** ** The invariant of reachable worlds *)
(* ================================================================== *)

Section Invariant.

Variable o : StreamRendererOptions.

Ltac run_method :=
  unfold new_StreamRenderer, step, exec, constructor, reset,
    initializeContainer, startRenderLoop, requestAnimationFrame,
    cancelAnimationFrame, createTextNode, appendChild, set_innerHTML,
    bind, get, modify, emit, ret;
  cbn.

Lemma wf_new (content : list child) (contain willChange : jsstring) :
  let w := new_StreamRenderer o (page content contain willChange) in
  wf o w /\ isFinished w = false /\ textBuffer w = [].
Proof.
  unfold wf, loop_ok, text_node_ok. run_method.
  destruct (truthy contain); cbn; destruct (truthy willChange); cbn;
    destruct (useTextNode o); cbn;
    repeat split; try reflexivity; try discriminate; lia.
Qed.

Lemma wf_reset (w : World) :
  wf o w ->
  wf o (step o Reset w) /\ isFinished (step o Reset w) = false /\
  textBuffer (step o Reset w) = [].
Proof.
  unfold wf, loop_ok, text_node_ok.
  destruct w as [buf last raf fin tn ch sc sw nd q hd lg]. cbn.
  intros (Hl & Ha & Ht). run_method.
  assert (Q : match raf with
              | Some h => remove Nat.eq_dec h q
              | None => q
              end = []).
  { destruct q as [|h [|h' q]]; [destruct raf; reflexivity| |contradiction].
    subst raf. apply remove_single. }
  destruct raf as [h|]; cbn; rewrite ?Q;
    destruct (truthy sc); cbn; destruct (truthy sw); cbn;
    destruct (useTextNode o) eqn:U; cbn; rewrite ?Q;
    repeat split; try reflexivity; try discriminate; try assumption;
    rewrite ?length_app; simpl; lia.
Qed.

Ltac unfold_after :=
  unfold after_callback, after_cleanup, cancelled, scheduled, after_update,
    after_render, after_destroy, rendering.

Lemma wf_AppendChunk (c : jsstring) (w : World) :
  wf o w -> wf o (step o (AppendChunk c) w).
Proof.
  rewrite step_AppendChunk. unfold wf, loop_ok, text_node_ok.
  destruct w as [buf last raf fin tn ch sc sw nd q hd lg]. cbn.
  destruct fin; cbn; exact (fun H => H).
Qed.

Lemma wf_Finish (w : World) : wf o w -> wf o (step o Finish w).
Proof.
  rewrite step_Finish. unfold wf, loop_ok, text_node_ok.
  destruct w as [buf last raf fin tn ch sc sw nd q hd lg]. cbn.
  destruct fin; cbn; [exact (fun H => H)|].
  intros (Hl & Ha & Ht). repeat split; try assumption; try discriminate.
  destruct (useTextNode o); [|exact Ht].
  destruct tn; [exact Ht|]. destruct Ht. discriminate.
Qed.

Lemma cancelled_queue (w : World) :
  loop_ok w -> raf_queue (cancelled w) = [].
Proof.
  unfold loop_ok, cancelled.
  destruct w as [buf last raf fin tn ch sc sw nd q hd lg]. cbn.
  destruct q as [|h [|h' q]]; intros H.
  - destruct raf; reflexivity.
  - rewrite H. cbn. destruct (Nat.eq_dec h h); [reflexivity|contradiction].
  - contradiction.
Qed.

Lemma wf_Destroy (w : World) : wf o w -> wf o (step o Destroy w).
Proof.
  rewrite step_Destroy. intros (Hl & Ha & Ht).
  pose proof (@cancelled_queue w Hl) as Q.
  unfold wf, loop_ok, text_node_ok, after_destroy in *. cbn. rewrite Q.
  repeat split; try discriminate.
  destruct (useTextNode o); [split; reflexivity|reflexivity].
Qed.

Lemma wf_AnimationFrame (w : World) : wf o w -> wf o (step o AnimationFrame w).
Proof.
  intros H. cbn [step].
  destruct (raf_queue w) as [|h [|h' q]] eqn:Q.
  - now rewrite animationFrame_idle.
  - rewrite (animationFrame_one o w Q).
    destruct H as (Hl & Ha & Ht). unfold loop_ok in Hl. rewrite Q in Hl.
    set (w0 := set_raf_queue [] w).
    assert (Ht0 : text_node_ok o w0) by (apply text_node_ok_dequeued; exact Ht).
    destruct (after_update_fields o w0) as (Eb & El & Er & Ef & En & Eq & Eh & Eg).
    pose proof (@text_node_ok_after_update o w0 Ht0) as Ht1.
    set (w1 := after_update o w0) in *.
    change (rafId w0) with (rafId w) in Er.
    change (raf_queue w0) with (@nil nat) in Eq.
    unfold after_callback. fold w1.
    destruct (isFinished w0) eqn:F; cbn [negb].
    + destruct (after_render_fields o w1)
        as (Eb' & El' & Er' & Ef' & En' & Eq' & Eh' & Eg').
      pose proof (@text_node_ok_after_render o w1 Ht1) as Ht2.
      set (w2 := after_render o w1) in *.
      assert (R2 : rafId w2 = Some h) by congruence.
      assert (Q2 : raf_queue w2 = []) by congruence.
      assert (F2 : isFinished w2 = true) by congruence.
      unfold after_cleanup, cancelled. rewrite R2, Q2.
      unfold wf, loop_ok. cbn. rewrite F2.
      split; [exact I|]. split; [discriminate|].
      apply (@text_node_ok_ext o w2 _ Ht2); try reflexivity. cbn. auto.
    + unfold scheduled. rewrite Eq, Eh.
      unfold wf, loop_ok. cbn.
      split; [reflexivity|]. split; [discriminate|].
      apply (@text_node_ok_ext o w1 _ Ht1); try reflexivity.
      rewrite Ef. discriminate.
  - destruct H as (Hl & _). unfold loop_ok in Hl. rewrite Q in Hl. contradiction.
Qed.

Lemma wf_step (a : action) (w : World) : wf o w -> wf o (step o a w).
Proof.
  destruct a.
  - apply wf_AppendChunk.
  - apply wf_Finish.
  - now rewrite step_GetCurrentText.
  - apply wf_reset.
  - apply wf_Destroy.
  - apply wf_AnimationFrame.
Qed.

Lemma reachable_wf (w : World) : reachable o w -> wf o w.
Proof.
  induction 1 as [c a b|a w H IH].
  - apply wf_new.
  - now apply wf_step.
Qed.

Lemma lifecycle_start_wf (w : World) :
  lifecycle_start o w -> wf o w /\ isFinished w = false /\ textBuffer w = [].
Proof.
  intros [c a b|w' H].
  - apply wf_new.
  - apply wf_reset, reachable_wf, H.
Qed.

End Invariant.

(* ================================================================== *)
(** ** Display frames *)
(* ================================================================== *)

Section Frames.

Variable o : StreamRendererOptions.


Lemma frame_active (w : World) :
  wf o w -> isFinished w = false ->
  step o AnimationFrame w = scheduled (after_update o (set_raf_queue [] w)).
Proof.
  intros (Hl & Ha & _) F. cbn [step]. specialize (Ha F). unfold loop_ok in Hl.
  destruct (raf_queue w) as [|h [|h' q]] eqn:Q; try contradiction.
  rewrite (animationFrame_one o w Q). unfold after_callback.
  destruct w; cbn in *. now rewrite F.
Qed.

Lemma frame_sealed (w : World) :
  wf o w -> isFinished w = true -> raf_queue w <> [] ->
  step o AnimationFrame w =
  after_cleanup (after_render o (after_update o (set_raf_queue [] w))).
Proof.
  intros (Hl & _ & _) F Hq. cbn [step]. unfold loop_ok in Hl.
  destruct (raf_queue w) as [|h [|h' q]] eqn:Q; try contradiction.
  rewrite (animationFrame_one o w Q). unfold after_callback.
  destruct w; cbn in *. now rewrite F.
Qed.

Lemma frame_terminated (w : World) :
  raf_queue w = [] -> step o AnimationFrame w = w.
Proof. apply animationFrame_idle. Qed.

Lemma onComplete_calls_app (l l' : list event) :
  onComplete_calls (l ++ l') = onComplete_calls l ++ onComplete_calls l'.
Proof.
  induction l as [|e l IH]; [reflexivity|].
  destruct e; simpl; now rewrite IH.
Qed.

Lemma onComplete_calls_rendering (tn : option nat) (buf : jsstring) :
  onComplete_calls (rendering o tn buf) = [].
Proof.
  unfold rendering.
  destruct (useTextNode o), tn; try reflexivity;
    destruct (markdownParser o buf); reflexivity.
Qed.

Lemma count_app (p : event -> bool) (l l' : list event) :
  count p (l ++ l') = count p l + count p l'.
Proof. unfold count. now rewrite filter_app, length_app. Qed.

Lemma count_render_rendering (tn : option nat) (buf : jsstring) :
  count is_render (rendering o tn buf) = 1.
Proof.
  unfold rendering.
  destruct (useTextNode o), tn; try reflexivity;
    destruct (markdownParser o buf); reflexivity.
Qed.

Lemma count_onUpdate_rendering (tn : option nat) (buf : jsstring) :
  count is_onUpdate (rendering o tn buf) = 0.
Proof.
  unfold rendering.
  destruct (useTextNode o), tn; try reflexivity;
    destruct (markdownParser o buf); reflexivity.
Qed.

Lemma count_uncaught_rendering (tn : option nat) (buf : jsstring) :
  count is_uncaught (rendering o tn buf) = 0.
Proof.
  unfold rendering.
  destruct (useTextNode o), tn; try reflexivity;
    destruct (markdownParser o buf); reflexivity.
Qed.

(** A frame of an unfinished renderer: the buffer and the phase stay, the
    next callback is queued, and the log grows by one render and one
    [onUpdate] exactly when the buffer differs from the last snapshot. *)
Lemma frame_active_fields (w : World) :
  wf o w -> isFinished w = false ->
  let w' := step o AnimationFrame w in
  textBuffer w' = textBuffer w /\
  lastRenderedText w' = textBuffer w /\
  isFinished w' = false /\
  textNode w' = textNode w /\
  raf_queue w' = [S (raf_handle w)] /\
  rafId w' = Some (S (raf_handle w)) /\
  log w' =
    log w ++
    (if jsstring_eqb (textBuffer w) (lastRenderedText w) then []
     else rendering o (textNode w) (textBuffer w) ++
          [CalledOnUpdate (textBuffer w)]).
Proof.
  intros H F w'. subst w'. rewrite (frame_active H F).
  destruct (after_update_fields o (set_raf_queue [] w))
    as (Eb & El & Er & Ef & En & Eq & Eh & Eg).
  unfold scheduled. cbn. rewrite Eb, El, Ef, En, Eq, Eh, Eg. cbn.
  repeat split; auto.
Qed.

(** The frame of a finished renderer whose callback is still queued. *)
Lemma frame_sealed_fields (w : World) :
  wf o w -> isFinished w = true -> raf_queue w <> [] ->
  let w' := step o AnimationFrame w in
  textBuffer w' = textBuffer w /\
  isFinished w' = true /\
  textNode w' = textNode w /\
  raf_queue w' = [] /\
  rafId w' = None /\
  log w' =
    log w ++
    (if jsstring_eqb (textBuffer w) (lastRenderedText w) then []
     else rendering o (textNode w) (textBuffer w) ++
          [CalledOnUpdate (textBuffer w)]) ++
    rendering o (textNode w) (textBuffer w) ++
    [CalledOnComplete (textBuffer w)].
Proof.
  intros H F Hq w'. subst w'. rewrite (frame_sealed H F Hq).
  destruct H as (Hl & _ & _). unfold loop_ok in Hl.
  destruct (raf_queue w) as [|h [|h' q]] eqn:Q; try contradiction.
  destruct (after_update_fields o (set_raf_queue [] w))
    as (Eb & El & Er & Ef & En & Eq & Eh & Eg).
  destruct (after_render_fields o (after_update o (set_raf_queue [] w)))
    as (Eb' & El' & Er' & Ef' & En' & Eq' & Eh' & Eg').
  unfold after_cleanup, cancelled.
  rewrite Er', Er. cbn [rafId set_raf_queue]. rewrite Hl. cbn.
  rewrite Eb', Eb, Ef', Ef, En', En, Eq', Eq, Eg', Eg, En, Eb. cbn.
  rewrite <- !app_assoc. repeat split; auto.
Qed.

End Frames.

(* ================================================================== *)
(** ** Lifecycles *)
(* ================================================================== *)

Section Lifecycle.

Variable o : StreamRendererOptions.

Ltac conjs := repeat match goal with |- _ /\ _ => split end.

Lemma run_app (a b : list action) (w : World) :
  run o (a ++ b) w = run o b (run o a w).
Proof. apply fold_left_app. Qed.

Lemma run_cons (a : action) (l : list action) (w : World) :
  run o (a :: l) w = run o l (step o a w).
Proof. reflexivity. Qed.

(** While streaming, the buffer is the concatenation of the chunks, the
    renderer stays unfinished and [onComplete] is not called. *)
Lemma run_streaming (acts : list action) :
  forall w,
    wf o w -> isFinished w = false -> forallb streaming acts = true ->
    wf o (run o acts w) /\
    isFinished (run o acts w) = false /\
    textBuffer (run o acts w) = textBuffer w ++ List.concat (chunks_of acts) /\
    onComplete_calls (log (run o acts w)) = onComplete_calls (log w).
Proof.
  induction acts as [|a acts IH]; intros w H F S.
  - cbn. rewrite app_nil_r. auto.
  - cbn [forallb] in S. apply andb_true_iff in S. destruct S as [Sa S].
    rewrite run_cons.
    assert (K : isFinished (step o a w) = false /\
                textBuffer (step o a w) = textBuffer w ++ List.concat (chunks_of [a]) /\
                onComplete_calls (log (step o a w)) = onComplete_calls (log w)).
    { destruct a; try discriminate.
      - rewrite step_AppendChunk, F. cbn. rewrite app_nil_r. auto.
      - rewrite step_GetCurrentText. cbn. rewrite app_nil_r. auto.
      - destruct (frame_active_fields H F) as (Eb & _ & Ef & _ & _ & _ & Eg).
        rewrite Eb, Ef, Eg. cbn. rewrite app_nil_r. conjs; auto.
        rewrite onComplete_calls_app.
        destruct (jsstring_eqb (textBuffer w) (lastRenderedText w)).
        + apply app_nil_r.
        + rewrite onComplete_calls_app, onComplete_calls_rendering.
          apply app_nil_r. }
    destruct K as (Kf & Kb & Kc).
    destruct (IH (step o a w) (wf_step a H) Kf S) as (H' & F' & B' & C').
    split; [exact H'|]. split; [exact F'|]. split.
    + rewrite B', Kb, <- app_assoc. f_equal.
      destruct a; cbn; rewrite ?app_nil_r; reflexivity.
    + now rewrite C'.
Qed.

(** After [finish()], calls from the chunk source change nothing but the
    log of warnings. *)
Lemma run_late (acts : list action) :
  forall w,
    wf o w -> isFinished w = true -> forallb late_call acts = true ->
    wf o (run o acts w) /\
    isFinished (run o acts w) = true /\
    textBuffer (run o acts w) = textBuffer w /\
    lastRenderedText (run o acts w) = lastRenderedText w /\
    textNode (run o acts w) = textNode w /\
    raf_queue (run o acts w) = raf_queue w /\
    onComplete_calls (log (run o acts w)) = onComplete_calls (log w).
Proof.
  induction acts as [|a acts IH]; intros w H F S.
  - cbn. conjs; auto.
  - cbn [forallb] in S. apply andb_true_iff in S. destruct S as [Sa S].
    rewrite run_cons.
    assert (K : isFinished (step o a w) = true /\
                textBuffer (step o a w) = textBuffer w /\
                lastRenderedText (step o a w) = lastRenderedText w /\
                textNode (step o a w) = textNode w /\
                raf_queue (step o a w) = raf_queue w /\
                onComplete_calls (log (step o a w)) = onComplete_calls (log w)).
    { destruct a; try discriminate.
      - rewrite step_AppendChunk, F. cbn. rewrite onComplete_calls_app. cbn.
        rewrite app_nil_r. conjs; auto.
      - rewrite step_Finish, F. conjs; auto.
      - rewrite step_GetCurrentText. conjs; auto. }
    destruct K as (Kf & Kb & Kl & Kn & Kq & Kc).
    destruct (IH (step o a w) (wf_step a H) Kf S)
      as (H' & F' & B' & L' & N' & Q' & C').
    conjs; auto; congruence.
Qed.

(** Once the loop has stopped, nothing but [reset()] has any effect on the
    buffer or calls [onComplete]. *)
Lemma run_terminated (acts : list action) :
  forall w,
    wf o w -> isFinished w = true -> raf_queue w = [] ->
    forallb no_reset acts = true ->
    isFinished (run o acts w) = true /\
    raf_queue (run o acts w) = [] /\
    textBuffer (run o acts w) = textBuffer w /\
    onComplete_calls (log (run o acts w)) = onComplete_calls (log w).
Proof.
  induction acts as [|a acts IH]; intros w H F Q S.
  - cbn. conjs; auto.
  - cbn [forallb] in S. apply andb_true_iff in S. destruct S as [Sa S].
    rewrite run_cons.
    assert (K : isFinished (step o a w) = true /\
                raf_queue (step o a w) = [] /\
                textBuffer (step o a w) = textBuffer w /\
                onComplete_calls (log (step o a w)) = onComplete_calls (log w)).
    { destruct a; try discriminate.
      - rewrite step_AppendChunk, F. cbn. rewrite onComplete_calls_app. cbn.
        rewrite app_nil_r. conjs; auto.
      - rewrite step_Finish, F. conjs; auto.
      - rewrite step_GetCurrentText. conjs; auto.
      - rewrite step_Destroy. destruct H as (Hl & _).
        pose proof (@cancelled_queue w Hl) as Qc.
        unfold after_destroy. cbn. rewrite Qc.
        unfold cancelled. destruct (rafId w); cbn; conjs; auto.
      - rewrite (frame_terminated o w Q). conjs; auto. }
    destruct K as (Kf & Kq & Kb & Kc).
    destruct (IH (step o a w) (wf_step a H) Kf Kq S) as (F' & Q' & B' & C').
    conjs; auto; congruence.
Qed.

(** From the sealed state on, without teardown: the text is fixed, and
    [onComplete] is called once, by the first frame. *)
Lemma run_sealed (post : list action) :
  forall w,
    wf o w -> isFinished w = true -> raf_queue w <> [] ->
    forallb no_teardown post = true ->
    textBuffer (run o post w) = textBuffer w /\
    onComplete_calls (log (run o post w)) =
      onComplete_calls (log w) ++
      (if existsb is_frame post then [textBuffer w] else []).
Proof.
  induction post as [|a post IH]; intros w H F Q S.
  - cbn. rewrite app_nil_r. auto.
  - cbn [forallb] in S. apply andb_true_iff in S. destruct S as [Sa S].
    rewrite run_cons. destruct (is_frame a) eqn:Fr.
    + destruct a; try discriminate. cbn [existsb is_frame orb].
      destruct (frame_sealed_fields H F Q) as (Eb & Ef & _ & Eq & _ & Eg).
      assert (S' : forallb no_reset post = true).
      { rewrite forallb_forall in *. intros x Hx. specialize (S x Hx).
        destruct x; auto. }
      destruct (@run_terminated post (step o AnimationFrame w)
                  (wf_step AnimationFrame H) Ef Eq S') as (_ & _ & B' & C').
      rewrite B', C', Eb, Eg. split; [reflexivity|].
      rewrite !onComplete_calls_app, onComplete_calls_rendering.
      destruct (jsstring_eqb (textBuffer w) (lastRenderedText w)); cbn.
      * reflexivity.
      * now rewrite onComplete_calls_app, onComplete_calls_rendering.
    + assert (La : forallb late_call [a] = true)
        by (destruct a; try discriminate; reflexivity).
      destruct (@run_late [a] w H F La) as (H' & F' & B' & _ & _ & Q' & C').
      cbn in H', F', B', Q', C'.
      rewrite <- Q' in Q.
      destruct (IH (step o a w) H' F' Q S) as (B'' & C'').
      cbn [existsb]. rewrite Fr. cbn [orb].
      rewrite B'', C'', B', C'. auto.
Qed.

End Lifecycle.

(* ================================================================== *)
(** ** The display surface *)
(* ================================================================== *)

Section Surface.

Variable o : StreamRendererOptions.



Lemma surface_after_render (w : World) :
  text_node_ok o w ->
  surface (after_render o w) = display_of o (textNode w) (textBuffer w).
Proof.
  unfold text_node_ok, after_render, display_of, surface.
  destruct w as [buf last raf fin tn ch sc sw nd q hd lg]. cbn.
  destruct (useTextNode o).
  - destruct tn as [id|]; cbn.
    + intros [-> Hid]. cbn. now rewrite list_update_nth.
    + intros _. destruct (markdownParser o buf) as [parsed|e]; cbn.
      * destruct (truthy parsed); reflexivity.
      * destruct (truthy buf); reflexivity.
  - intros ->. cbn. destruct (markdownParser o buf) as [parsed|e]; cbn.
    + destruct (truthy parsed); reflexivity.
    + destruct (truthy buf); reflexivity.
Qed.

Lemma surface_after_cleanup (w : World) : surface (after_cleanup w) = surface w.
Proof.
  unfold after_cleanup, cancelled, surface. destruct (rafId w); reflexivity.
Qed.

Lemma surface_scheduled (w : World) : surface (scheduled w) = surface w.
Proof. reflexivity. Qed.

(** After the change-detection step the surface shows the buffer whenever
    the buffer differed from the last snapshot. *)
Lemma surface_after_update (w : World) :
  text_node_ok o w ->
  jsstring_eqb (textBuffer w) (lastRenderedText w) = false ->
  surface (after_update o w) = display_of o (textNode w) (textBuffer w).
Proof.
  intros H E. unfold after_update. rewrite E. cbn [negb].
  rewrite <- (@surface_after_render w H). reflexivity.
Qed.


End Surface.

(* ================================================================== *)
(** ** Properties of the renderer *)
(* ================================================================== *)

(** C4: in a lifecycle, before [finish()], after any sequence of appends
    (with reads and display frames in between) [getCurrentText()] returns
    the concatenation of the chunks appended so far, in call order; one more
    append extends it by that chunk, so the buffer never gets shorter. *)
Theorem appendChunk_concatenates
    (o : StreamRendererOptions) (w0 : World) (acts : list action)
    (chunk : jsstring) :
  lifecycle_start o w0 ->
  forallb streaming acts = true ->
  fst (getCurrentText (run o acts w0)) = Normal (List.concat (chunks_of acts)) /\
  fst (getCurrentText (run o (acts ++ [AppendChunk chunk]) w0))
    = Normal (List.concat (chunks_of acts) ++ chunk) /\
  List.length (textBuffer (run o acts w0))
    <= List.length (textBuffer (run o (acts ++ [AppendChunk chunk]) w0)).
Proof.
  intros L S.
  destruct (lifecycle_start_wf L) as (H & F & B).
  destruct (run_streaming acts H F S) as (H' & F' & B' & _).
  rewrite B in B'. cbn [app] in B'.
  rewrite run_app. cbn [run fold_left]. rewrite step_AppendChunk, F'.
  unfold getCurrentText, get. cbn. rewrite B'.
  repeat split. rewrite length_app. lia.
Qed.

Lemma appendChunk_concatenates_witness :
  let o := default_options in
  let acts := [AppendChunk (js "A" ++ [LF] ++ js "--"); AnimationFrame;
               AppendChunk (js "-" ++ [LF])] in
  fst (getCurrentText (run o acts (new_StreamRenderer o (page [] [] []))))
  = Normal (js "A" ++ [LF] ++ js "---" ++ [LF]).
Proof.
  intros o acts.
  exact (proj1 (@appendChunk_concatenates o _ acts []
                  (start_new o [] [] []) eq_refl)).
Defined.

(** C7: [appendChunk] on a sealed or terminated presenter, also one torn
    down by [destroy()], returns normally, leaves the buffer as it is and
    reports the misuse with a console warning. *)
Theorem appendChunk_after_finish_ignored
    (o : StreamRendererOptions) (w w' : World) (chunk : jsstring) :
  phase_of w = Sealed \/ phase_of w = Terminated ->
  let warned v :=
    set_log
      (log v ++
       [ConsoleWarn
          "StreamRenderer: Cannot append chunk after finish() has been called"
          None]) v in
  appendChunk chunk w = (Normal tt, warned w) /\
  fst (getCurrentText (step o (AppendChunk chunk) w)) = fst (getCurrentText w) /\
  appendChunk chunk (step o Destroy w') = (Normal tt, warned (step o Destroy w')).
Proof.
  intros P warned.
  assert (F : isFinished w = true).
  { unfold phase_of in P. destruct (isFinished w); [reflexivity|].
    cbn in P. destruct P; discriminate. }
  rewrite step_AppendChunk, !appendChunk_eq, F, step_Destroy.
  repeat split.
Qed.

Lemma appendChunk_after_finish_ignored_witness :
  let o := default_options in
  let w := run o [AppendChunk (js "A"); Finish]
             (new_StreamRenderer o (page [] [] [])) in
  phase_of w = Sealed /\
  fst (getCurrentText (step o (AppendChunk (js "x")) w)) = fst (getCurrentText w).
Proof.
  intros o w. split; [reflexivity|].
  exact (proj1 (proj2 (@appendChunk_after_finish_ignored o w w (js "x")
                         (or_introl eq_refl)))).
Defined.

Lemma step_Finish_idempotent (o : StreamRendererOptions) (w : World) :
  step o Finish (step o Finish w) = step o Finish w.
Proof.
  rewrite !step_Finish. destruct (isFinished w) eqn:F; cbn; now rewrite ?F.
Qed.

(** C8: [finish()] on a finished presenter returns normally and changes
    nothing.  So a lifecycle with a repeated [finish()], and any further
    calls and frames without teardown, ends in the same world as with one
    [finish()]: the final text is the sanitizer applied once to the
    streamed text, and [onComplete] is called once, with that text. *)
Theorem finish_idempotent
    (o : StreamRendererOptions) (w0 w : World) (pre post : list action) :
  lifecycle_start o w0 ->
  forallb streaming pre = true ->
  forallb no_teardown post = true ->
  existsb is_frame post = true ->
  isFinished w = true ->
  let final := sanitize o (List.concat (chunks_of pre)) in
  let twice := run o (pre ++ Finish :: Finish :: post) w0 in
  finish o w = (Normal tt, w) /\
  twice = run o (pre ++ Finish :: post) w0 /\
  textBuffer twice = final /\
  onComplete_calls (log twice) = onComplete_calls (log w0) ++ [final].
Proof.
  intros L S T Fr F final twice. subst final twice.
  split; [rewrite finish_eq, F; reflexivity|].
  rewrite !run_app, !run_cons, step_Finish_idempotent.
  split; [reflexivity|].
  destruct (lifecycle_start_wf L) as (H0 & F0 & B0).
  destruct (run_streaming pre H0 F0 S) as (H1 & F1 & B1 & C1).
  rewrite B0 in B1. cbn [app] in B1.
  set (w1 := run o pre w0) in *.
  assert (H2 : wf o (step o Finish w1)) by now apply wf_step.
  assert (E : step o Finish w1 =
              set_textBuffer (sanitize o (textBuffer w1)) (set_isFinished true w1))
    by now rewrite step_Finish, F1.
  assert (F2 : isFinished (step o Finish w1) = true) by now rewrite E.
  assert (Q2 : raf_queue (step o Finish w1) <> []).
  { rewrite E. cbn. destruct H1 as (_ & Ha & _). auto. }
  destruct (run_sealed post H2 F2 Q2 T) as (B3 & C3).
  rewrite B3, C3, Fr, E. cbn. now rewrite B1, C1.
Qed.

Lemma finish_idempotent_witness :
  let o := default_options in
  let w0 := new_StreamRenderer o (page [] [] []) in
  let text := js "A" ++ [LF] ++ js "---" ++ [LF] ++ js "---" in
  let twice := run o [AppendChunk text; Finish; Finish; AnimationFrame; Finish] w0 in
  textBuffer twice = js "A" ++ [LF] ++ js "---" /\
  onComplete_calls (log twice) = [js "A" ++ [LF] ++ js "---"] /\
  sanitize o (sanitize o text) = js "A".
Proof.
  intros o w0 text twice.
  pose proof (@finish_idempotent o w0 twice [AppendChunk text]
                [AnimationFrame; Finish]
                (start_new o [] [] []) eq_refl eq_refl eq_refl eq_refl) as H.
  cbv zeta in H. destruct H as (_ & _ & Hb & Hc).
  split; [exact Hb|]. split; [exact Hc|]. reflexivity.
Defined.

(** C3: in a lifecycle, once [finish()] has been called on the streaming
    presenter, [onComplete] has not been called while the presenter is
    sealed; the next frame makes the presenter terminated and calls
    [onComplete] once with the sanitized text; nothing short of [reset()]
    calls it again.  From any reachable world, [destroy()] and whatever
    follows it short of [reset()] never calls [onComplete]. *)
Theorem onComplete_exactly_once
    (o : StreamRendererOptions) (w0 w : World)
    (pre late rest post : list action) :
  lifecycle_start o w0 ->
  forallb streaming pre = true ->
  forallb late_call late = true ->
  forallb no_reset rest = true ->
  reachable o w ->
  forallb no_reset post = true ->
  let final := sanitize o (List.concat (chunks_of pre)) in
  let sealed := run o (pre ++ Finish :: late) w0 in
  let done := step o AnimationFrame sealed in
  (phase_of sealed = Sealed /\
   onComplete_calls (log sealed) = onComplete_calls (log w0)) /\
  (phase_of done = Terminated /\
   onComplete_calls (log done) = onComplete_calls (log w0) ++ [final]) /\
  onComplete_calls (log (run o rest done)) = onComplete_calls (log w0) ++ [final] /\
  onComplete_calls (log (run o (Destroy :: post) w)) = onComplete_calls (log w).
Proof.
  intros L S La Sr R Sp final sealed done. subst final sealed done.
  destruct (lifecycle_start_wf L) as (H0 & F0 & B0).
  destruct (run_streaming pre H0 F0 S) as (H1 & F1 & B1 & C1).
  rewrite B0 in B1. cbn [app] in B1.
  rewrite run_app, run_cons.
  set (w1 := run o pre w0) in *.
  assert (H2 : wf o (step o Finish w1)) by now apply wf_step.
  assert (E : step o Finish w1 =
              set_textBuffer (sanitize o (textBuffer w1)) (set_isFinished true w1))
    by now rewrite step_Finish, F1.
  assert (F2 : isFinished (step o Finish w1) = true) by now rewrite E.
  assert (Q2 : raf_queue (step o Finish w1) <> []).
  { rewrite E. cbn. destruct H1 as (_ & Ha & _). auto. }
  destruct (run_late late H2 F2 La) as (H3 & F3 & B3 & _ & _ & Q3 & C3).
  set (w3 := run o late (step o Finish w1)) in *.
  rewrite <- Q3 in Q2.
  assert (B3' : textBuffer w3 = sanitize o (List.concat (chunks_of pre)))
    by (rewrite B3, E; cbn; now rewrite B1).
  assert (C3' : onComplete_calls (log w3) = onComplete_calls (log w0))
    by (rewrite C3, E; cbn; exact C1).
  destruct (frame_sealed_fields H3 F3 Q2) as (B4 & F4 & _ & Q4 & _ & G4).
  assert (C4 : onComplete_calls (log (step o AnimationFrame w3)) =
               onComplete_calls (log w0) ++
               [sanitize o (List.concat (chunks_of pre))]).
  { rewrite G4, !onComplete_calls_app, onComplete_calls_rendering, C3', B3'.
    match goal with |- context [if ?b then _ else _] => destruct b end;
      cbn; [reflexivity|].
    now rewrite onComplete_calls_app, onComplete_calls_rendering. }
  split; [|split; [|split]].
  - split; [|exact C3'].
    unfold phase_of. rewrite F3. cbn. destruct (raf_queue w3); congruence.
  - split; [|exact C4]. unfold phase_of. now rewrite F4, Q4.
  - destruct (@run_terminated o rest _ (wf_step AnimationFrame H3) F4 Q4 Sr)
      as (_ & _ & _ & C5).
    now rewrite C5.
  - rewrite run_cons.
    pose proof (reachable_wf R) as Hw.
    assert (Hd : wf o (step o Destroy w)) by now apply wf_step.
    assert (Fd : isFinished (step o Destroy w) = true)
      by now rewrite step_Destroy.
    assert (Qd : raf_queue (step o Destroy w) = []).
    { rewrite step_Destroy. unfold after_destroy. cbn.
      apply cancelled_queue. apply Hw. }
    destruct (@run_terminated o post _ Hd Fd Qd Sp) as (_ & _ & _ & C5).
    rewrite C5, step_Destroy. unfold after_destroy, cancelled.
    destruct (rafId w); reflexivity.
Qed.

Lemma onComplete_exactly_once_witness :
  let o := default_options in
  let w0 := new_StreamRenderer o (page [] [] []) in
  let text := js "A" ++ [LF] ++ js "---" ++ [LF] in
  let sealed := run o [AppendChunk text; Finish; AppendChunk (js "x")] w0 in
  let done := step o AnimationFrame sealed in
  (onComplete_calls (log sealed) = [] /\
   onComplete_calls (log done) = [js "A"] /\
   onComplete_calls (log (run o [AnimationFrame; Destroy; AnimationFrame] done))
   = [js "A"]) /\
  onComplete_calls
    (log (run o [AppendChunk text; Finish; Destroy; AnimationFrame; Finish] w0))
  = [].
Proof.
  intros o w0 text sealed done.
  pose proof
    (@onComplete_exactly_once o w0
       (run o [AppendChunk text; Finish] w0)
       [AppendChunk text] [AppendChunk (js "x")]
       [AnimationFrame; Destroy; AnimationFrame] [AnimationFrame; Finish]
       (start_new o [] [] []) eq_refl eq_refl eq_refl
       (@reachable_step o Finish _
          (@reachable_step o (AppendChunk text) _ (reachable_new o [] [] [])))
       eq_refl) as H.
  cbv zeta in H. destruct H as ((_ & H1) & (_ & H2) & H3 & H4).
  vm_compute in H1, H2, H3, H4. vm_compute.
  split; [split; [exact H1|split; [exact H2|exact H3]]|exact H4].
Defined.

(* ================================================================== *)
(** ** Further properties: construction, reset and teardown *)
(* ================================================================== *)

Section Reinitialisation.

Variable o : StreamRendererOptions.

Ltac conjs := repeat match goal with |- _ /\ _ => split end.

Ltac run_init :=
  unfold new_StreamRenderer, step, exec, constructor, reset,
    initializeContainer, startRenderLoop, requestAnimationFrame,
    cancelAnimationFrame, createTextNode, appendChild, set_innerHTML,
    bind, get, modify, emit, ret;
  cbn.

(** The world [reset()] leaves, field by field. *)
Lemma reset_fields (w : World) :
  wf o w ->
  let w' := step o Reset w in
  textBuffer w' = [] /\
  lastRenderedText w' = [] /\
  isFinished w' = false /\
  raf_queue w' = [S (raf_handle w)] /\
  rafId w' = Some (S (raf_handle w)) /\
  textNode w' = (if useTextNode o then Some (List.length (nodes w)) else None) /\
  surface w' = (if useTextNode o then [ShowsText []] else []) /\
  callbacks (log w') = callbacks (log w) /\
  style_contain w' =
    (if truthy (style_contain w) then style_contain w else js "content") /\
  style_willChange w' =
    (if truthy (style_willChange w) then style_willChange w else js "contents").
Proof.
  unfold wf, loop_ok, text_node_ok, surface, callbacks.
  destruct w as [buf last raf fin tn ch sc sw nd q hd lg]. cbn.
  intros (Hl & Ha & Ht). run_init.
  assert (Q : match raf with
              | Some h => remove Nat.eq_dec h q
              | None => q
              end = []).
  { destruct q as [|h [|h' q]]; [destruct raf; reflexivity| |contradiction].
    subst raf. apply remove_single. }
  destruct raf as [h|]; cbn; rewrite ?Q;
    destruct (truthy sc); cbn; destruct (truthy sw); cbn;
    destruct (useTextNode o) eqn:U; cbn; rewrite ?Q;
    rewrite ?filter_app, ?app_nil_r, ?nth_middle; cbn;
    rewrite ?filter_app, ?app_nil_r; cbn; rewrite ?app_nil_r;
    conjs; try reflexivity; try assumption.
Qed.

(** The world the constructor leaves on a page. *)
Lemma new_fields (content : list child) (contain willChange : jsstring) :
  let w' := new_StreamRenderer o (page content contain willChange) in
  textBuffer w' = [] /\
  lastRenderedText w' = [] /\
  isFinished w' = false /\
  raf_queue w' = [1] /\
  rafId w' = Some 1 /\
  textNode w' = (if useTextNode o then Some 0 else None) /\
  surface w' = (if useTextNode o then [ShowsText []] else []) /\
  callbacks (log w') = [] /\
  style_contain w' = (if truthy contain then contain else js "content") /\
  style_willChange w' = (if truthy willChange then willChange else js "contents").
Proof.
  unfold surface, callbacks. run_init.
  destruct (truthy contain); cbn; destruct (truthy willChange); cbn;
    destruct (useTextNode o); cbn; conjs; reflexivity.
Qed.

End Reinitialisation.

(* ================================================================== *)
(** ** Further properties: what a page can observe *)
(* ================================================================== *)

Section Observations.

Variable o : StreamRendererOptions.

Ltac conjs := repeat match goal with |- _ /\ _ => split end.

Lemma callbacks_app (l l' : list event) :
  callbacks (l ++ l') = callbacks l ++ callbacks l'.
Proof. apply filter_app. Qed.

Lemma display_of_held (tn tn' : option nat) (buf : jsstring) :
  (tn = None <-> tn' = None) -> display_of o tn buf = display_of o tn' buf.
Proof.
  unfold display_of. intros [H H'].
  destruct tn, tn'; try reflexivity;
    try discriminate (H' eq_refl); try discriminate (H eq_refl);
    destruct (useTextNode o); reflexivity.
Qed.

Lemma callbacks_rendering_held (tn tn' : option nat) (buf : jsstring) :
  (tn = None <-> tn' = None) ->
  callbacks (rendering o tn buf) = callbacks (rendering o tn' buf).
Proof.
  unfold rendering. intros [H H'].
  destruct tn, tn'; try reflexivity;
    try discriminate (H' eq_refl); try discriminate (H eq_refl);
    destruct (useTextNode o); reflexivity.
Qed.

Lemma surface_frame_active (w : World) :
  wf o w -> isFinished w = false ->
  surface (step o AnimationFrame w) =
  if jsstring_eqb (textBuffer w) (lastRenderedText w) then surface w
  else display_of o (textNode w) (textBuffer w).
Proof.
  intros H F. rewrite (frame_active H F).
  change (surface (scheduled (after_update o (set_raf_queue [] w))))
    with (surface (after_update o (set_raf_queue [] w))).
  destruct H as (_ & _ & Ht).
  pose proof (@text_node_ok_dequeued o w Ht) as Ht0.
  destruct (jsstring_eqb (textBuffer w) (lastRenderedText w)) eqn:E.
  - unfold after_update. cbn [textBuffer lastRenderedText set_raf_queue].
    rewrite E. reflexivity.
  - exact (@surface_after_update o (set_raf_queue [] w) Ht0 E).
Qed.

Lemma surface_frame_sealed (w : World) :
  wf o w -> isFinished w = true -> raf_queue w <> [] ->
  surface (step o AnimationFrame w) = display_of o (textNode w) (textBuffer w).
Proof.
  intros H F Q. rewrite (frame_sealed H F Q). rewrite surface_after_cleanup.
  destruct H as (_ & _ & Ht).
  pose proof (@text_node_ok_dequeued o w Ht) as Ht0.
  pose proof (@text_node_ok_after_update o _ Ht0) as Ht1.
  rewrite (@surface_after_render o _ Ht1).
  destruct (after_update_fields o (set_raf_queue [] w))
    as (Eb & _ & _ & _ & En & _).
  now rewrite Eb, En.
Qed.

Lemma lastRenderedText_frame_sealed (w : World) :
  wf o w -> isFinished w = true -> raf_queue w <> [] ->
  lastRenderedText (step o AnimationFrame w) = textBuffer w.
Proof.
  intros H F Q. rewrite (frame_sealed H F Q).
  destruct (after_update_fields o (set_raf_queue [] w)) as (_ & El & _).
  destruct (after_render_fields o (after_update o (set_raf_queue [] w)))
    as (_ & El' & _).
  unfold after_cleanup, cancelled.
  destruct (rafId (after_render o (after_update o (set_raf_queue [] w))));
    cbn; now rewrite El', El.
Qed.

Lemma surface_step_quiet (a : action) (w : World) :
  late_call a = true -> surface (step o a w) = surface w.
Proof.
  destruct a; try discriminate; intros _.
  - rewrite step_AppendChunk. destruct (isFinished w); reflexivity.
  - rewrite step_Finish. destruct (isFinished w); reflexivity.
  - reflexivity.
Qed.

Lemma cancelled_fields (w : World) :
  textBuffer (cancelled w) = textBuffer w /\
  lastRenderedText (cancelled w) = lastRenderedText w /\
  isFinished (cancelled w) = isFinished w /\
  rafId (cancelled w) = None /\
  textNode (cancelled w) = textNode w /\
  children (cancelled w) = children w /\
  nodes (cancelled w) = nodes w /\
  style_contain (cancelled w) = style_contain w /\
  style_willChange (cancelled w) = style_willChange w /\
  log (cancelled w) = log w.
Proof.
  unfold cancelled. destruct (rafId w) eqn:E; cbn; conjs; auto.
Qed.

Lemma after_destroy_fields (w : World) :
  wf o w ->
  textBuffer (after_destroy w) = textBuffer w /\
  lastRenderedText (after_destroy w) = lastRenderedText w /\
  isFinished (after_destroy w) = true /\
  raf_queue (after_destroy w) = [] /\
  rafId (after_destroy w) = None /\
  textNode (after_destroy w) = None /\
  surface (after_destroy w) = surface w /\
  log (after_destroy w) = log w.
Proof.
  intros (Hl & _). pose proof (@cancelled_queue w Hl) as Q.
  destruct (cancelled_fields w)
    as (Eb & El & Ef & Er & En & Ec & Ed & _ & _ & Eg).
  unfold after_destroy, surface. cbn. rewrite Eb, El, Q, Er, Ec, Ed, Eg.
  conjs; reflexivity.
Qed.

(** One action keeps two similar worlds similar and makes the same
    observable calls in both. *)
Lemma similar_step (x : action) (a b : World) :
  wf o a -> wf o b -> similar a b ->
  similar (step o x a) (step o x b) /\
  exists evs,
    callbacks (log (step o x a)) = callbacks (log a) ++ evs /\
    callbacks (log (step o x b)) = callbacks (log b) ++ evs.
Proof.
  intros Ha Hb (Sb & Sl & Sf & Sq & Sn & Ss).
  destruct x.
  - (* appendChunk *)
    rewrite !step_AppendChunk, <- Sf.
    destruct (isFinished a) eqn:F.
    + split.
      * unfold similar, surface. cbn. conjs; auto; congruence.
      * eexists. cbn [log set_log]. rewrite !callbacks_app. split; reflexivity.
    + split.
      * unfold similar, surface. cbn. rewrite Sb. conjs; auto; congruence.
      * exists []. cbn. now rewrite !app_nil_r.
  - (* finish *)
    rewrite !step_Finish, <- Sf.
    destruct (isFinished a) eqn:F.
    + split; [unfold similar; conjs; auto; congruence|].
      exists []. now rewrite !app_nil_r.
    + split.
      * unfold similar, surface. cbn. rewrite Sb. conjs; auto; congruence.
      * exists []. cbn. now rewrite !app_nil_r.
  - (* getCurrentText *)
    rewrite !step_GetCurrentText. split; [unfold similar; conjs; auto; congruence|].
    exists []. now rewrite !app_nil_r.
  - (* reset *)
    destruct (reset_fields Ha) as (Ab & Al & Af & Aq & _ & An & As' & Ac & _).
    destruct (reset_fields Hb) as (Bb & Bl & Bf & Bq & _ & Bn & Bs & Bc & _).
    split.
    + unfold similar. rewrite Ab, Al, Af, Aq, An, As', Bb, Bl, Bf, Bq, Bn, Bs.
      destruct (useTextNode o); conjs; auto; split; intros;
        (discriminate || reflexivity).
    + exists []. rewrite Ac, Bc, !app_nil_r. split; reflexivity.
  - (* destroy *)
    rewrite !step_Destroy.
    destruct (after_destroy_fields Ha) as (Ab & Al & Af & Aq & _ & An & As' & Ag).
    destruct (after_destroy_fields Hb) as (Bb & Bl & Bf & Bq & _ & Bn & Bs & Bg).
    split.
    + unfold similar. rewrite Ab, Al, Af, Aq, An, As', Bb, Bl, Bf, Bq, Bn, Bs.
      conjs; auto; split; reflexivity.
    + exists []. rewrite Ag, Bg, !app_nil_r. split; reflexivity.
  - (* animation frame *)
    destruct (raf_queue a) as [|ha qa] eqn:Qa.
    + assert (Qb : raf_queue b = []) by now apply Sq.
      rewrite (frame_terminated o a Qa), (frame_terminated o b Qb).
      split; [unfold similar; rewrite Qa, Qb; conjs; auto; split; reflexivity|].
      exists []. now rewrite !app_nil_r.
    + assert (Qa' : raf_queue a <> []) by (rewrite Qa; discriminate).
      assert (Qb' : raf_queue b <> []) by (intros E; apply Sq in E; congruence).
      destruct (isFinished a) eqn:Fa.
      * assert (Fb : isFinished b = true) by congruence.
        destruct (frame_sealed_fields Ha Fa Qa') as (Ab & Af & An & Aq & _ & Ag).
        destruct (frame_sealed_fields Hb Fb Qb') as (Bb & Bf & Bn & Bq & _ & Bg).
        split.
        -- unfold similar.
           rewrite Ab, Bb, Af, Bf, An, Bn, Aq, Bq,
             (lastRenderedText_frame_sealed Ha Fa Qa'),
             (lastRenderedText_frame_sealed Hb Fb Qb'),
             (surface_frame_sealed Ha Fa Qa'), (surface_frame_sealed Hb Fb Qb'),
             Sb, (display_of_held (textBuffer b) Sn).
           conjs; auto; split; reflexivity.
        -- rewrite Ag, Bg, !callbacks_app, <- Sb, <- Sl.
           rewrite (callbacks_rendering_held (textBuffer a) Sn).
           eexists. split; [reflexivity|]. do 2 f_equal.
           destruct (jsstring_eqb (textBuffer a) (lastRenderedText a));
             [reflexivity|].
           now rewrite !callbacks_app, (callbacks_rendering_held (textBuffer a) Sn).
      * assert (Fb : isFinished b = false) by congruence.
        destruct (frame_active_fields Ha Fa) as (Ab & Al & Af & An & Aq & _ & Ag).
        destruct (frame_active_fields Hb Fb) as (Bb & Bl & Bf & Bn & Bq & _ & Bg).
        split.
        -- unfold similar.
           rewrite Ab, Bb, Al, Bl, Af, Bf, An, Bn, Aq, Bq,
             (surface_frame_active Ha Fa), (surface_frame_active Hb Fb),
             <- Sb, <- Sl, (display_of_held (textBuffer a) Sn), Ss.
           conjs; auto; split; intros; discriminate.
        -- rewrite Ag, Bg, !callbacks_app, <- Sb, <- Sl.
           eexists. split; [reflexivity|]. f_equal.
           destruct (jsstring_eqb (textBuffer a) (lastRenderedText a));
             [reflexivity|].
           now rewrite !callbacks_app, (callbacks_rendering_held (textBuffer a) Sn).
Qed.

Lemma similar_run (acts : list action) :
  forall a b,
    wf o a -> wf o b -> similar a b ->
    similar (run o acts a) (run o acts b) /\
    exists evs,
      callbacks (log (run o acts a)) = callbacks (log a) ++ evs /\
      callbacks (log (run o acts b)) = callbacks (log b) ++ evs.
Proof.
  induction acts as [|x acts IH]; intros a b Ha Hb S.
  - split; [exact S|]. exists []. now rewrite !app_nil_r.
  - rewrite !run_cons.
    destruct (similar_step x Ha Hb S) as (S' & e1 & A1 & B1).
    destruct (IH _ _ (wf_step x Ha) (wf_step x Hb) S') as (S'' & e2 & A2 & B2).
    split; [exact S''|]. exists (e1 ++ e2).
    now rewrite A2, B2, A1, B1, !app_assoc.
Qed.

End Observations.

(* ================================================================== *)
(** ** Properties of construction, reset and teardown *)
(* ================================================================== *)

Lemma phase_of_similar (a b : World) : similar a b -> phase_of a = phase_of b.
Proof.
  intros (_ & _ & Sf & Sq & _). unfold phase_of. rewrite Sf.
  destruct (isFinished b); cbn; [|reflexivity].
  destruct (raf_queue a), (raf_queue b); try reflexivity.
  - destruct Sq as [H _]. discriminate (H eq_refl).
  - destruct Sq as [_ H]. discriminate (H eq_refl).
Qed.

(** X1: [reset()] from any reachable world, whatever its phase, starts a
    fresh lifecycle: the buffer and the snapshot are empty, the presenter
    is active with exactly one newly issued frame callback pending, the
    surface is an empty text node of its own (text mode) or empty (markup
    mode), and no callback is made. *)
Theorem reset_starts_fresh (o : StreamRendererOptions) (w : World) :
  reachable o w ->
  let w' := step o Reset w in
  fst (getCurrentText w') = Normal [] /\
  lastRenderedText w' = [] /\
  phase_of w' = Active /\
  raf_queue w' = [S (raf_handle w)] /\
  rafId w' = Some (S (raf_handle w)) /\
  textNode w' = (if useTextNode o then Some (List.length (nodes w)) else None) /\
  surface w' = (if useTextNode o then [ShowsText []] else []) /\
  callbacks (log w') = callbacks (log w).
Proof.
  intros R w'. subst w'.
  destruct (reset_fields (reachable_wf R))
    as (Eb & El & Ef & Eq & Er & En & Es & Ec & _).
  unfold getCurrentText, get, phase_of. cbn [fst]. rewrite Eb, Ef.
  repeat split; assumption.
Qed.

Lemma reset_starts_fresh_witness :
  let o := default_options in
  let w := run o [AppendChunk (js "A"); Finish; AnimationFrame]
             (new_StreamRenderer o (page [] [] [])) in
  phase_of w = Terminated /\
  fst (getCurrentText (step o Reset w)) = Normal [] /\
  phase_of (step o Reset w) = Active /\
  surface (step o Reset w) = [ShowsText []].
Proof.
  intros o w.
  assert (R : reachable o w).
  { repeat apply reachable_step. apply reachable_new. }
  pose proof (reset_starts_fresh R) as H. cbv zeta in H.
  destruct H as (H1 & _ & H3 & _ & _ & _ & H7 & _).
  split; [reflexivity|]. split; [exact H1|]. split; [exact H3|exact H7].
Defined.

(** X2: a presenter that was reset cannot be told from a newly constructed
    one.  After the same actions, whatever they are, both return the same
    text, are in the same phase, show the same surface, and have made the
    same [onUpdate], [onComplete] and warning calls since the reset as the
    new one since its construction. *)
Theorem reset_isolation
    (o : StreamRendererOptions) (w : World)
    (content : list child) (contain willChange : jsstring)
    (acts : list action) :
  reachable o w ->
  let a := run o acts (step o Reset w) in
  let b := run o acts (new_StreamRenderer o (page content contain willChange)) in
  fst (getCurrentText a) = fst (getCurrentText b) /\
  phase_of a = phase_of b /\
  surface a = surface b /\
  callbacks (log a) = callbacks (log w) ++ callbacks (log b).
Proof.
  intros R a b. subst a b.
  pose proof (reachable_wf R) as Hw.
  destruct (reset_fields Hw) as (Ab & Al & Af & Aq & _ & An & As' & Ac & _).
  destruct (new_fields o content contain willChange)
    as (Bb & Bl & Bf & Bq & _ & Bn & Bs & Bc & _).
  cbv zeta in Ab, Al, Af, Aq, An, As', Ac, Bb, Bl, Bf, Bq, Bn, Bs, Bc.
  assert (S : similar (step o Reset w)
                (new_StreamRenderer o (page content contain willChange))).
  { unfold similar. rewrite Ab, Al, Af, Aq, An, As', Bb, Bl, Bf, Bq, Bn, Bs.
    destruct (useTextNode o); repeat split; intros; discriminate. }
  destruct (@similar_run o acts _ _ (wf_step Reset Hw)
              (proj1 (wf_new o content contain willChange)) S)
    as (S' & evs & Ea & Eb).
  rewrite Bc in Eb. cbn [app] in Eb. rewrite Ea, Eb, Ac.
  pose proof (phase_of_similar S') as P.
  destruct S' as (Sb & _ & _ & _ & _ & Ss).
  unfold getCurrentText, get. cbn [fst]. rewrite Sb.
  repeat split; assumption.
Qed.

Lemma reset_isolation_witness :
  let o := default_options in
  let w := run o [AppendChunk (js "old"); Finish; AnimationFrame]
             (new_StreamRenderer o (page [] [] [])) in
  let acts := [AppendChunk (js "A"); AnimationFrame; Finish; AnimationFrame] in
  surface (run o acts (step o Reset w)) = [ShowsText (js "A")] /\
  callbacks (log (run o acts (step o Reset w)))
  = [CalledOnUpdate (js "old"); CalledOnComplete (js "old");
     CalledOnUpdate (js "A"); CalledOnComplete (js "A")].
Proof.
  intros o w acts.
  assert (R : reachable o w).
  { repeat apply reachable_step. apply reachable_new. }
  pose proof (@reset_isolation o w [] [] [] acts R) as H. cbv zeta in H.
  destruct H as (_ & _ & H3 & H4).
  split; [rewrite H3; reflexivity|rewrite H4; reflexivity].
Defined.
















(* ------------------------------------------------------------------ *)
(** *** Container styles and, in markup mode, the absence of text nodes *)

Section Static.

Variable o : StreamRendererOptions.

Ltac conjs := repeat match goal with |- _ /\ _ => split end.

Lemma after_render_static (w : World) :
  style_contain (after_render o w) = style_contain w /\
  style_willChange (after_render o w) = style_willChange w /\
  (useTextNode o = false ->
   nodes (after_render o w) = nodes w /\
   no_node_ref (children (after_render o w)) = true).
Proof.
  unfold after_render.
  destruct (useTextNode o) eqn:U, (textNode w) eqn:E; cbn; conjs;
    try reflexivity; try discriminate; intros _; split; try reflexivity;
    destruct (markdownParser o (textBuffer w)) as [parsed|e];
    [destruct (truthy parsed)|destruct (truthy (textBuffer w))|
     destruct (truthy parsed)|destruct (truthy (textBuffer w))];
    reflexivity.
Qed.

Lemma after_update_static (w : World) :
  style_contain (after_update o w) = style_contain w /\
  style_willChange (after_update o w) = style_willChange w /\
  (useTextNode o = false ->
   nodes (after_update o w) = nodes w /\
   (no_node_ref (children w) = true ->
    no_node_ref (children (after_update o w)) = true)).
Proof.
  unfold after_update.
  destruct (after_render_static w) as (Sc & Sw & K).
  destruct (negb (jsstring_eqb (textBuffer w) (lastRenderedText w))); cbn.
  - conjs; auto. intros U. destruct (K U) as (Kn & Kc). split; auto.
  - conjs; auto.
Qed.

(** What one action does to the styles and, in markup mode, to the text
    nodes of the document and the children of the container. *)
Lemma static_step (a : action) (w : World) :
  wf o w ->
  style_contain (step o a w) =
    (if is_reset a
     then if truthy (style_contain w) then style_contain w else js "content"
     else style_contain w) /\
  style_willChange (step o a w) =
    (if is_reset a
     then if truthy (style_willChange w) then style_willChange w
          else js "contents"
     else style_willChange w) /\
  (useTextNode o = false -> no_node_ref (children w) = true ->
   nodes (step o a w) = nodes w /\
   no_node_ref (children (step o a w)) = true).
Proof.
  intros H. destruct a; cbn [is_reset].
  - rewrite step_AppendChunk. destruct (isFinished w); cbn; conjs; auto.
  - rewrite step_Finish. destruct (isFinished w); cbn; conjs; auto.
  - rewrite step_GetCurrentText. conjs; auto.
  - destruct (reset_fields H) as (_ & _ & _ & _ & _ & _ & _ & _ & Sc & Sw).
    split; [exact Sc|]. split; [exact Sw|].
    intros U _. clear Sc Sw. revert H.
    unfold wf, loop_ok, text_node_ok.
    destruct w as [buf last raf fin tn ch sc sw nd q hd lg]. cbn.
    intros _.
    unfold step, exec, reset, initializeContainer, startRenderLoop,
      requestAnimationFrame, cancelAnimationFrame, createTextNode, appendChild,
      set_innerHTML, bind, get, modify, emit, ret.
    cbn. rewrite U.
    destruct raf; cbn; destruct (truthy sc); cbn; destruct (truthy sw); cbn;
      split; reflexivity.
  - rewrite step_Destroy.
    destruct (cancelled_fields w)
      as (_ & _ & _ & _ & _ & Ec & Ed & Esc & Esw & _).
    unfold after_destroy. cbn. rewrite Esc, Esw, Ec, Ed. conjs; auto.
  - destruct (raf_queue w) as [|h q] eqn:Q.
    + rewrite (frame_terminated o w Q). conjs; auto.
    + assert (Q' : raf_queue w <> []) by (rewrite Q; discriminate).
      destruct (after_update_static (set_raf_queue [] w)) as (Uc & Uw & Uk).
      destruct (isFinished w) eqn:F.
      * rewrite (frame_sealed H F Q').
        destruct (after_render_static (after_update o (set_raf_queue [] w)))
          as (Rc & Rw & Rk).
        destruct (cancelled_fields
                    (after_render o (after_update o (set_raf_queue [] w))))
          as (_ & _ & _ & _ & _ & Ec & Ed & Esc & Esw & _).
        unfold after_cleanup. cbn. rewrite Esc, Esw, Ec, Ed, Rc, Rw, Uc, Uw.
        conjs; auto. intros U N.
        destruct (Rk U) as (Rn & Rch). destruct (Uk U) as (Un & _).
        rewrite Rn, Un. split; [reflexivity|exact Rch].
      * rewrite (frame_active H F). unfold scheduled. cbn. rewrite Uc, Uw.
        conjs; auto. intros U N. destruct (Uk U) as (Un & Uch).
        split; [exact Un|exact (Uch N)].
Qed.

End Static.

Lemma truthy_default (s d : jsstring) :
  truthy d = true -> truthy (if truthy s then s else d) = true.
Proof. intros D. destruct (truthy s) eqn:E; assumption. Qed.

(** X7: the presenter never overwrites styles the page has set.  A
    non-empty [contain] or [will-change] found on the container at
    construction is kept, an empty one becomes [content] (resp.
    [contents]), and no later call, frame or [reset()] changes either. *)
Theorem container_styles_kept
    (o : StreamRendererOptions) (content : list child)
    (contain willChange : jsstring) (acts : list action) :
  let w := run o acts (new_StreamRenderer o (page content contain willChange)) in
  style_contain w = (if truthy contain then contain else js "content") /\
  style_willChange w = (if truthy willChange then willChange else js "contents").
Proof.
  intros w. subst w.
  destruct (new_fields o content contain willChange)
    as (_ & _ & _ & _ & _ & _ & _ & _ & Sc & Sw).
  cbv zeta in Sc, Sw. rewrite <- Sc, <- Sw.
  assert (Tc : truthy (style_contain
                         (new_StreamRenderer o (page content contain willChange)))
               = true) by (rewrite Sc; now apply truthy_default).
  assert (Tw : truthy (style_willChange
                         (new_StreamRenderer o (page content contain willChange)))
               = true) by (rewrite Sw; now apply truthy_default).
  pose proof (proj1 (wf_new o content contain willChange)) as H.
  clear Sc Sw.
  generalize dependent (new_StreamRenderer o (page content contain willChange)).
  induction acts as [|a acts IH]; intros w Tc Tw H; [split; reflexivity|].
  rewrite run_cons.
  destruct (static_step a H) as (Sc & Sw & _).
  assert (Ec : style_contain (step o a w) = style_contain w)
    by (rewrite Sc, Tc; now destruct (is_reset a)).
  assert (Ew : style_willChange (step o a w) = style_willChange w)
    by (rewrite Sw, Tw; now destruct (is_reset a)).
  rewrite <- Ec, <- Ew. apply IH; [congruence|congruence|now apply wf_step].
Qed.



(* ================================================================== *)
(** ** The integration example: cutting objects out of the stream *)
(* ================================================================== *)

Lemma resumable_reset : resumable [] 0%Z None.
Proof. intros rest. reflexivity. Qed.

Lemma scan_objects_snoc (seen rest : jsstring) (c : N) :
  (seen ++ [c]) ++ rest = seen ++ c :: rest.
Proof. now rewrite <- app_assoc. Qed.

(** Scanning [a ++ b] is scanning [a], then scanning what [a] left
    followed by [b] from the reset state. *)
Lemma scan_objects_app (a : jsstring) :
  forall (b seen : jsstring) (d : Z) (st : option nat),
    resumable seen d st ->
    scan_objects (a ++ b) seen d st =
    let (o1, r1) := scan_objects a seen d st in
    let (o2, r2) := scan_objects (r1 ++ b) [] 0%Z None in
    (o1 ++ o2, r2).
Proof.
  induction a as [|c a IH]; intros b seen d st R.
  - cbn [app scan_objects]. rewrite R.
    destruct (scan_objects b seen d st). reflexivity.
  - cbn [app scan_objects].
    destruct (c =? open_brace)%N eqn:Eo.
    + apply IH. intros rest. rewrite scan_objects_snoc, R.
      cbn [scan_objects]. now rewrite Eo.
    + destruct (c =? close_brace)%N eqn:Ec.
      * destruct (d - 1 =? 0)%Z eqn:Ed.
        -- destruct st as [start|].
           ++ apply Z.eqb_eq in Ed. rewrite Ed.
              rewrite (IH b [] 0%Z None resumable_reset).
              destruct (scan_objects a [] 0%Z None) as [o1 r1].
              destruct (scan_objects (r1 ++ b) [] 0%Z None) as [o2 r2].
              reflexivity.
           ++ apply IH. intros rest. rewrite scan_objects_snoc, R.
              cbn [scan_objects]. now rewrite Eo, Ec, Ed.
        -- apply IH. intros rest. rewrite scan_objects_snoc, R.
           cbn [scan_objects]. rewrite Eo, Ec, Ed.
           destruct st; reflexivity.
      * apply IH. intros rest. rewrite scan_objects_snoc, R.
        cbn [scan_objects]. now rewrite Eo, Ec.
Qed.

(** The buffer a scan leaves holds no complete object: scanning it again
    cuts nothing and leaves it as it is. *)
Lemma scan_objects_left_settled (rest : jsstring) :
  forall (seen : jsstring) (d : Z) (st : option nat),
    resumable seen d st ->
    scan_objects (snd (scan_objects rest seen d st)) [] 0%Z None
    = ([], snd (scan_objects rest seen d st)).
Proof.
  induction rest as [|c rest IH]; intros seen d st R.
  - cbn [scan_objects snd]. rewrite <- (app_nil_r seen) at 1. rewrite R.
    reflexivity.
  - cbn [scan_objects].
    destruct (c =? open_brace)%N eqn:Eo.
    + apply IH. intros r. rewrite scan_objects_snoc, R.
      cbn [scan_objects]. now rewrite Eo.
    + destruct (c =? close_brace)%N eqn:Ec.
      * destruct (d - 1 =? 0)%Z eqn:Ed.
        -- destruct st as [start|].
           ++ apply Z.eqb_eq in Ed. rewrite Ed.
              pose proof (IH [] 0%Z None resumable_reset) as K.
              destruct (scan_objects rest [] 0%Z None) as [o1 r1].
              exact K.
           ++ apply IH. intros r. rewrite scan_objects_snoc, R.
              cbn [scan_objects]. now rewrite Eo, Ec, Ed.
        -- apply IH. intros r. rewrite scan_objects_snoc, R.
           cbn [scan_objects]. rewrite Eo, Ec, Ed.
           destruct st; reflexivity.
      * apply IH. intros r. rewrite scan_objects_snoc, R.
        cbn [scan_objects]. now rewrite Eo, Ec.
Qed.

Lemma read_stream_settled (chunks : list jsstring) :
  forall buffer,
    scan_objects buffer [] 0%Z None = ([], buffer) ->
    read_stream chunks buffer = read_chunk buffer (List.concat chunks).
Proof.
  unfold read_chunk.
  induction chunks as [|c chunks IH]; intros buffer S.
  - cbn. now rewrite app_nil_r, S.
  - cbn [read_stream List.concat]. unfold read_chunk.
    rewrite app_assoc.
    rewrite (scan_objects_app (buffer ++ c) (List.concat chunks) resumable_reset).
    pose proof (scan_objects_left_settled (buffer ++ c) resumable_reset) as K.
    destruct (scan_objects (buffer ++ c) [] 0%Z None) as [o1 r1].
    cbn [snd] in K. rewrite (IH r1 K). reflexivity.
Qed.

(** X9: the objects cut out of a response, and the buffer left, do not
    depend on how the network splits the response into chunks: reading the
    chunks one by one gives what one read of their concatenation gives.
    Hence two ways of chunking the same response drive the renderer with
    the same [appendChunk] calls. *)
Theorem read_stream_chunking
    (text_of : jsstring -> option jsstring) (chunks chunks' : list jsstring) :
  List.concat chunks = List.concat chunks' ->
  read_stream chunks [] = read_chunk [] (List.concat chunks) /\
  read_stream chunks [] = read_stream chunks' [] /\
  stream_actions text_of chunks = stream_actions text_of chunks'.
Proof.
  intros E.
  assert (K : forall cs, read_stream cs [] = read_chunk [] (List.concat cs))
    by (intros cs; apply read_stream_settled; reflexivity).
  split; [apply K|].
  assert (R : read_stream chunks [] = read_stream chunks' [])
    by now rewrite !K, E.
  split; [exact R|]. unfold stream_actions. now rewrite R.
Qed.

Lemma read_stream_chunking_witness :
  let whole := js "[{a:{b}}," ++ [LF] ++ js "{c}" in
  let parts := [js "[{a:"; js "{b"; js "}},"; [LF] ++ js "{"; js "c}"] in
  fst (read_stream parts []) = [js "{a:{b}}"; js "{c}"] /\
  read_stream parts [] = read_stream [whole] [].
Proof.
  intros whole parts.
  destruct (@read_stream_chunking (fun _ => None) parts [whole] eq_refl)
    as (_ & H & _).
  split; [vm_compute; reflexivity|exact H].
Defined.

Lemma scan_objects_shape (rest : jsstring) :
  forall (seen : jsstring) (d : Z) (st : option nat),
    (forall k, st = Some k ->
               exists pre post, seen = pre ++ open_brace :: post /\
                                List.length pre = k) ->
    Forall object_shaped (fst (scan_objects rest seen d st)) /\
    exists pre, seen ++ rest = pre ++ snd (scan_objects rest seen d st).
Proof.
  induction rest as [|c rest IH]; intros seen d st I.
  - cbn. split; [constructor|]. exists []. now rewrite app_nil_r.
  - replace (seen ++ c :: rest) with ((seen ++ [c]) ++ rest)
      by apply scan_objects_snoc.
    cbn [scan_objects].
    destruct (c =? open_brace)%N eqn:Eo.
    + apply IH. intros k Hk. apply N.eqb_eq in Eo. subst c.
      destruct (d =? 0)%Z.
      * injection Hk as <-. exists seen, []. split; reflexivity.
      * destruct (I k Hk) as (pre & post & -> & L).
        exists pre, (post ++ [open_brace]). split; [|exact L].
        now rewrite <- app_assoc.
    + assert (Keep : forall k, st = Some k ->
                exists pre post, seen ++ [c] = pre ++ open_brace :: post /\
                                 List.length pre = k).
      { intros k Hk. destruct (I k Hk) as (pre & post & -> & L).
        exists pre, (post ++ [c]). split; [|exact L].
        now rewrite <- app_assoc. }
      destruct (c =? close_brace)%N eqn:Ec; [|now apply IH].
      destruct (d - 1 =? 0)%Z; [|now apply IH].
      destruct st as [start|]; [|now apply IH].
      destruct (IH [] (d - 1)%Z None) as (F & pre' & E); [discriminate|].
      destruct (scan_objects rest [] (d - 1)%Z None) as [objs left].
      cbn [fst snd] in *. split.
      * constructor; [|exact F].
        destruct (I start eq_refl) as (pre & post & -> & L).
        apply N.eqb_eq in Ec. subst c.
        exists post. rewrite <- app_assoc. cbn [app].
        rewrite <- L. apply skipn_length_app.
      * exists ((seen ++ [c]) ++ pre'). cbn [app] in E.
        rewrite <- (app_assoc (seen ++ [c])). now rewrite E.
Qed.

(** X10: whatever arrives, each candidate handed to [JSON.parse] starts
    with an opening and ends with a closing brace, and the buffer kept for
    the next read is a suffix of the buffer read: text is only dropped from
    the front, never invented or reordered. *)
Theorem read_chunk_cuts_objects (buffer chunk : jsstring) :
  Forall object_shaped (fst (read_chunk buffer chunk)) /\
  exists dropped, buffer ++ chunk = dropped ++ snd (read_chunk buffer chunk).
Proof.
  unfold read_chunk.
  destruct (@scan_objects_shape (buffer ++ chunk) [] 0%Z None) as (F & pre & E);
    [discriminate|].
  split; [exact F|]. exists pre. exact E.
Qed.

(* ================================================================== *)
(** ** The integration example: its sanitizer *)
(* ================================================================== *)

Lemma drop_while_suffix (p : N -> bool) (l : jsstring) :
  exists a, l = a ++ drop_while p l /\ forallb p a = true.
Proof.
  induction l as [|c l (a & E & F)]; [now exists []|].
  cbn. destruct (p c) eqn:P.
  - exists (c :: a). cbn. rewrite P, F. split; [now f_equal|reflexivity].
  - exists []. split; reflexivity.
Qed.

Lemma drop_while_head_not (p : N -> bool) (l : jsstring) :
  match drop_while p l with [] => True | c :: _ => p c = false end.
Proof.
  induction l as [|c l IH]; cbn; [exact I|].
  destruct (p c) eqn:P; [exact IH|exact P].
Qed.

Lemma replace_all_prefix_of (text : jsstring) :
  exists rest, text = replace_all trailing_rule [] text ++ rest.
Proof.
  destruct (stripped_total text) as [p [p' t Ht|text' Hn]].
  - destruct (replace_all_prefix p' Ht) as (l & _ & E).
    exists (l ++ t). rewrite app_assoc, <- E. reflexivity.
  - exists []. now rewrite replace_all_no_rule, app_nil_r.
Qed.

(** X11: the sanitizer of the example only removes text from the two ends
    of its input.  Its result is a contiguous part of the input, preceded
    there by nothing but white space, and it neither starts nor ends with
    white space. *)
Theorem sanitizeMarkdown_only_removes (text : jsstring) :
  exists a b,
    text = a ++ sanitizeMarkdown text ++ b /\
    forallb is_white_space a = true /\
    match sanitizeMarkdown text with
    | [] => True
    | c :: _ => is_white_space c = false
    end /\
    match rev (sanitizeMarkdown text) with
    | [] => True
    | c :: _ => is_white_space c = false
    end.
Proof.
  unfold sanitizeMarkdown, trim, trimStart, trimEnd.
  destruct (replace_all_prefix_of text) as (rest & Et).
  set (r := replace_all trailing_rule [] text) in *.
  destruct (drop_while_suffix is_white_space (rev r)) as (a1 & E1 & _).
  set (z := drop_while is_white_space (rev r)) in *.
  destruct (drop_while_suffix is_white_space (rev z)) as (a2 & E2 & F2).
  set (y := drop_while is_white_space (rev z)) in *.
  exists a2, (rev a1 ++ rest). split; [|split; [exact F2|split]].
  - rewrite Et at 1. rewrite <- (rev_involutive r), E1, rev_app_distr, E2.
    now rewrite <- !app_assoc.
  - apply drop_while_head_not.
  - pose proof (drop_while_head_not is_white_space (rev r)) as Hz. fold z in Hz.
    apply (f_equal (@rev N)) in E2.
    rewrite rev_involutive, rev_app_distr in E2.
    destruct (rev y) as [|c y']; [exact I|].
    rewrite E2 in Hz. exact Hz.
Qed.

(* ================================================================== *)
(** ** The integration example: from the response to the final text *)
(* ================================================================== *)







(* ================================================================== *)
(** ** The application *)
(* ================================================================== *)

Lemma split_lines_nonempty (s : jsstring) : split_lines s <> [].
Proof.
  destruct s as [|c s]; cbn; [discriminate|].
  destruct (c =? LF)%N; [discriminate|].
  destruct (split_lines s); discriminate.
Qed.

Lemma join_split_lines (s : jsstring) : join_lines (split_lines s) = s.
Proof.
  induction s as [|c s IH]; [reflexivity|].
  cbn [split_lines]. destruct (c =? LF)%N eqn:E.
  - apply N.eqb_eq in E. subst c.
    pose proof (split_lines_nonempty s) as Ne.
    destruct (split_lines s) as [|l ls]; [contradiction|].
    cbn [join_lines app]. cbn [join_lines] in IH. now rewrite IH.
  - destruct (split_lines s) as [|l ls] eqn:S.
    + now destruct (split_lines_nonempty s).
    + rewrite <- IH. destruct ls; reflexivity.
Qed.

Lemma fix_rows_content (lines : list jsstring) :
  forall i, snd (fix_rows i lines) = lines.
Proof.
  induction lines as [|line rest IH]; intros i; [reflexivity|].
  cbn [fix_rows]. specialize (IH (S i)).
  destruct (fix_rows (S i) rest) as [warnings fixedContent]. cbn [snd] in IH.
  destruct (includes_unit vertical_bar line && (1000 <? List.length line));
    cbn [snd]; now rewrite IH.
Qed.

Lemma fix_rows_warnings (lines : list jsstring) :
  forall i,
    Forall (fun w : nat * nat =>
              i <= fst w /\
              exists line, nth_error lines (fst w - i) = Some line /\
                           List.length line = snd w /\
                           1000 < snd w /\
                           includes_unit vertical_bar line = true)
           (fst (fix_rows i lines)).
Proof.
  induction lines as [|line rest IH]; intros i; [constructor|].
  cbn [fix_rows]. specialize (IH (S i)).
  destruct (fix_rows (S i) rest) as [warnings fixedContent]. cbn [fst] in IH.
  assert (K : Forall (fun w : nat * nat =>
              i <= fst w /\
              exists l, nth_error (line :: rest) (fst w - i) = Some l /\
                        List.length l = snd w /\
                        1000 < snd w /\
                        includes_unit vertical_bar l = true) warnings).
  { eapply Forall_impl; [|exact IH]. intros [j n] (Hj & l & Hn & Hl).
    cbn [fst snd] in *. split; [lia|]. exists l. split; [|exact Hl].
    replace (j - i) with (S (j - S i)) by lia. exact Hn. }
  destruct (includes_unit vertical_bar line) eqn:Eb;
    destruct (1000 <? List.length line) eqn:El; cbn [andb fst]; try exact K.
  constructor; [|exact K]. cbn [fst snd]. split; [lia|].
  exists line. rewrite Nat.sub_diag. apply Nat.ltb_lt in El. auto.
Qed.

(** X13: the step that post-processes the markdown of a response never
    changes it.  Whatever the response, the content after the step is the
    content before it; the step only warns, and only about lines that have
    a [|] and more than 1000 units. *)
Theorem postprocess_tables_keeps_content (markdownContent : jsstring) :
  snd (postprocess_tables markdownContent) = markdownContent /\
  Forall (fun w : nat * nat =>
            exists line,
              nth_error (split_lines markdownContent) (fst w) = Some line /\
              List.length line = snd w /\
              1000 < snd w /\
              includes_unit vertical_bar line = true)
         (fst (postprocess_tables markdownContent)).
Proof.
  unfold postprocess_tables.
  pose proof (fix_rows_content (split_lines markdownContent) 0) as C.
  pose proof (fix_rows_warnings (split_lines markdownContent) 0) as W.
  destruct (fix_rows 0 (split_lines markdownContent)) as [warnings fixed].
  cbn [fst snd] in *. subst fixed. split; [apply join_split_lines|].
  eapply Forall_impl; [|exact W]. intros [j n] (_ & l & Hn & Hl).
  cbn [fst snd] in *. rewrite Nat.sub_0_r in Hn. exists l. auto.
Qed.

Lemma match_here_line_feed (s : jsstring) :
  match_here line_feed_rule s =
  match s with
  | c :: _ => if (c =? LF)%N then Some 1 else None
  | [] => None
  end.
Proof.
  destruct s as [|c s]; [reflexivity|].
  cbn. destruct (c =? LF)%N; reflexivity.
Qed.

(** X14: in the text of a failure shown to the user every line feed of
    the message is replaced by [<br>] and every other code unit is kept, in
    order; so the text shown holds no line feed. *)
Theorem errorText_replaces_line_feeds (message : jsstring) :
  errorText message
  = flat_map (fun c => if (c =? LF)%N then js "<br>" else [c]) message /\
  includes_unit LF (errorText message) = false.
Proof.
  assert (E : errorText message
              = flat_map (fun c => if (c =? LF)%N then js "<br>" else [c]) message).
  { unfold errorText, replace_all.
    induction message as [|c s IH]; [reflexivity|].
    rewrite replace_scan_0, match_here_line_feed. cbn [flat_map].
    destruct (c =? LF)%N.
    - cbn [replace_scan]. now rewrite IH.
    - now rewrite IH. }
  split; [exact E|]. rewrite E. clear E.
  induction message as [|c s IH]; [reflexivity|].
  cbn [flat_map]. unfold includes_unit in *. rewrite existsb_app, IH.
  destruct (c =? LF)%N eqn:Ec; [reflexivity|].
  cbn [existsb]. rewrite N.eqb_sym, Ec. reflexivity.
Qed.



(** X16: for both configured providers [validateApiKey] accepts a key
    exactly when the key starts with the provider's [keyPrefix], the prefix
    the warning shown to the user names; and no key is accepted for both
    providers. *)
Theorem validateApiKey_tests_prefix (key : jsstring) :
  validateApiKey key openai = startsWith (keyPrefix openai) key /\
  validateApiKey key gemini = startsWith (keyPrefix gemini) key /\
  validateApiKey key openai && validateApiKey key gemini = false.
Proof.
  destruct key as [|c key]; [repeat split|].
  assert (Eo : validateApiKey (c :: key) openai
               = startsWith (keyPrefix openai) (c :: key)) by reflexivity.
  assert (Eg : validateApiKey (c :: key) gemini
               = startsWith (keyPrefix gemini) (c :: key)) by reflexivity.
  split; [exact Eo|]. split; [exact Eg|]. rewrite Eo, Eg.
  cbn [keyPrefix openai gemini js startsWith].
  destruct (N_of_ascii "s" =? c)%N eqn:Es; [|reflexivity].
  apply N.eqb_eq in Es. subst c.
  change (N_of_ascii "A" =? N_of_ascii "s")%N with false.
  cbn [andb]. apply andb_false_r.
Qed.

(* ================================================================== *)
(** ** The application: working days *)
(* ================================================================== *)

Section WorkingDays.

Variable tz : Z.

Local Open Scope Z_scope.

Lemma getDay_range (c : Z) : 0 <= getDay tz c < 7.
Proof. unfold getDay. apply Z.mod_pos_bound. lia. Qed.

Lemma getDay_next (c : Z) : getDay tz (c + msPerDay) = (getDay tz c + 1) mod 7.
Proof.
  unfold getDay.
  replace (c + msPerDay + tz) with ((c + tz) + 1 * msPerDay) by ring.
  rewrite Z.div_add by (unfold msPerDay; lia).
  rewrite Zplus_mod_idemp_l. f_equal. ring.
Qed.

(** The loop, run for the [n] days from [c] that are not after [e]. *)
Lemma working_days_loop_counts (e : Z) (n : nat) :
  forall (fuel : nat) (c : Z) (count : nat),
    (n <= fuel)%nat ->
    - maxTime <= c -> e <= maxTime ->
    e < c + Z.of_nat n * msPerDay ->
    ((0 < n)%nat -> c + (Z.of_nat n - 1) * msPerDay <= e) ->
    working_days_loop tz fuel (Some c) (Some e) count
    = Some (count + weekdays_from (getDay tz c) n)%nat.
Proof.
  assert (D : msPerDay = 86400000) by reflexivity.
  induction n as [|n IH]; intros fuel c count Hf Hc He Hlt Hle.
  - destruct fuel; cbn [working_days_loop];
      (replace (c <=? e) with false by (symmetry; apply Z.leb_gt; lia));
      cbn; f_equal; lia.
  - destruct fuel as [|fuel]; [lia|].
    cbn [working_days_loop].
    replace (c <=? e) with true by (symmetry; apply Z.leb_le; lia).
    cbn [weekdays_from]. unfold next_day, timeClip.
    destruct (Z.abs (c + msPerDay) <=? maxTime) eqn:Clip.
    + apply Z.leb_le in Clip.
      rewrite (IH fuel (c + msPerDay)); try lia.
      rewrite getDay_next.
      destruct (negb (getDay tz c =? 0) && negb (getDay tz c =? 6));
        f_equal; lia.
    + apply Z.leb_gt in Clip.
      assert (n = 0%nat) by lia. subst n.
      destruct fuel; cbn [working_days_loop weekdays_from];
        destruct (negb (getDay tz c =? 0) && negb (getDay tz c =? 6));
        f_equal; lia.
Qed.

Lemma calculateWorkingDays_counts (s e : Z) :
  - maxTime <= s -> s <= e -> e <= maxTime ->
  calculateWorkingDays tz (Some s) (Some e)
  = Some (weekdays_from (getDay tz s) (Z.to_nat ((e - s) / msPerDay + 1))).
Proof.
  intros Hs Hse He. unfold calculateWorkingDays.
  assert (D : 0 < msPerDay) by reflexivity.
  pose proof (Z.div_mod (e - s) msPerDay ltac:(lia)) as Q.
  pose proof (Z.mod_pos_bound (e - s) msPerDay D) as R.
  assert (Qp : 0 <= (e - s) / msPerDay) by (apply Z.div_pos; lia).
  rewrite (@working_days_loop_counts e (Z.to_nat ((e - s) / msPerDay + 1)));
    try reflexivity; try lia.
Qed.

End WorkingDays.

Lemma weekdays_from_weeks (k : nat) :
  forall g, (0 <= g < 7)%Z -> weekdays_from g (7 * k) = 5 * k.
Proof.
  induction k as [|k IH]; intros g Hg; [reflexivity|].
  replace (7 * S k) with (7 + 7 * k) by lia.
  assert (C : (g = 0 \/ g = 1 \/ g = 2 \/ g = 3 \/ g = 4 \/ g = 5 \/ g = 6)%Z)
    by lia.
  destruct C as [->|[->|[->|[->|[->|[->| ->]]]]]];
    cbn -[Nat.mul]; rewrite IH by lia; lia.
Qed.


(** X17: a plan of whole weeks has five working days a week.  For valid
    dates whose span is [7 k] days, [calculateWorkingDays] returns [5 k],
    on whatever week day the plan starts and whatever the constant offset
    of the host's local time. *)
Theorem calculateWorkingDays_whole_weeks (tz s e : Z) (k : nat) :
  (- maxTime <= s)%Z -> (e <= maxTime)%Z ->
  ((e - s) / msPerDay = 7 * Z.of_nat k - 1)%Z ->
  0 < k ->
  calculateWorkingDays tz (Some s) (Some e) = Some (5 * k).
Proof.
  intros Hs He Hk K.
  assert (D : (0 < msPerDay)%Z) by reflexivity.
  pose proof (Z.div_mod (e - s) msPerDay ltac:(lia)) as Q.
  pose proof (Z.mod_pos_bound (e - s) msPerDay D) as R.
  assert (Hse : (s <= e)%Z) by (rewrite Hk in Q; unfold msPerDay in *; lia).
  rewrite calculateWorkingDays_counts by assumption.
  rewrite Hk.
  replace (Z.to_nat (7 * Z.of_nat k - 1 + 1)) with (7 * k) by lia.
  now rewrite weekdays_from_weeks by apply getDay_range.
Qed.

Lemma calculateWorkingDays_whole_weeks_witness :
  calculateWorkingDays (-18000000)%Z (Some 1704067200000%Z)
    (Some 1705190400000%Z)
  = Some 10.
Proof.
  exact (@calculateWorkingDays_whole_weeks (-18000000)%Z 1704067200000%Z
           1705190400000%Z 2 ltac:(vm_compute; discriminate)
           ltac:(vm_compute; discriminate) eq_refl ltac:(lia)).
Defined.



Lemma getDay_date_only (tz d : Z) :
  (- msPerDay <= tz < msPerDay)%Z ->
  getDay tz (d * msPerDay)
  = ((d + (if (0 <=? tz)%Z then 4 else 3)) mod 7)%Z.
Proof.
  intros Htz. unfold getDay.
  assert (D : (msPerDay <> 0)%Z) by discriminate.
  rewrite Z.div_add_l by exact D.
  destruct (0 <=? tz)%Z eqn:E.
  - apply Z.leb_le in E. rewrite Z.div_small by lia. f_equal. ring.
  - apply Z.leb_gt in E.
    rewrite <- (Z.div_unique tz msPerDay (-1) (tz + msPerDay))%Z;
      [f_equal; ring| |ring].
    left. lia.
Qed.

(** X19: a date given without a time is the UTC midnight of its day,
    and the week day is taken in local time.  So for a plan of one such
    day, in a zone at or east of UTC (by less than a day) the day counts
    under its own week day, and in a zone west of UTC it counts under the
    week day before: there a Monday counts as a Sunday and a Saturday as a
    Friday. *)
Theorem calculateWorkingDays_date_only (tz d : Z) :
  (- msPerDay <= tz < msPerDay)%Z ->
  (- maxTime <= d * msPerDay <= maxTime)%Z ->
  calculateWorkingDays tz (Some (d * msPerDay)%Z) (Some (d * msPerDay)%Z)
  = Some (weekdays_from ((d + (if (0 <=? tz)%Z then 4 else 3)) mod 7)%Z 1).
Proof.
  intros Htz Hd.
  rewrite calculateWorkingDays_counts by lia.
  rewrite Z.sub_diag. cbn [Z.div Z.add Z.to_nat Pos.to_nat Pos.iter_op Nat.add].
  change (Z.to_nat (0 / msPerDay + 1)) with 1.
  now rewrite getDay_date_only.
Qed.

Lemma calculateWorkingDays_date_only_witness :
  calculateWorkingDays (-18000000)%Z (Some (19723 * msPerDay)%Z)
    (Some (19723 * msPerDay)%Z) = Some 0 /\
  calculateWorkingDays 0%Z (Some (19723 * msPerDay)%Z)
    (Some (19723 * msPerDay)%Z) = Some 1.
Proof.
  split.
  - exact (@calculateWorkingDays_date_only (-18000000)%Z 19723%Z
             ltac:(unfold msPerDay, maxTime; lia)
             ltac:(unfold msPerDay, maxTime; lia)).
  - exact (@calculateWorkingDays_date_only 0%Z 19723%Z
             ltac:(unfold msPerDay, maxTime; lia)
             ltac:(unfold msPerDay, maxTime; lia)).
Defined.
